(** * Cosmic Uploads: the storage lifecycle of the backend, verified

    A shallow embedding of [src/server.js] (the upload, metadata, download and
    preview handlers, the expiry sweep [cleanExpiredFiles] and the capacity
    sweep [manageStorageCapacity]) and of the share-page handler of
    [src/backend/server.js].

    Conventions of the embedding.
    - JavaScript numbers that hold byte counts and epoch milliseconds are
      integers far below 2^53, where double arithmetic is exact: they are [Z].
    - [fileMetadata] is a JavaScript [Map]: keys are unique and iteration
      follows insertion order, so it is an association list in that order.
    - The file system is the environment: a set of existing blob paths, and a
      set of paths on which the operating system refuses [unlink].
    - [Date.now()] is an input of the handler that reads it.
    - A handler runs from start to end without another handler interleaving at
      its [await]s; every effect it performs is recorded, in program order, in
      the trace it returns. *)

From Stdlib Require Import ZArith List String Ascii Bool Arith Lia.
From Stdlib Require Import Permutation Sorted.
Import ListNotations.

Open Scope string_scope.
Open Scope list_scope.
Open Scope Z_scope.


(** ** Constants *)

(** [24 * 60 * 60 * 1000], the time to live in milliseconds. *)
Definition TTL_MS : Z := 24 * 60 * 60 * 1000.

(** [MAX_STORAGE = 5 * 1024 * 1024 * 1024]. *)
Definition MAX_STORAGE : Z := 5 * 1024 * 1024 * 1024.

(** ** Records *)

(** The object stored in [fileMetadata] by the upload handler. *)
Record Metadata : Type := mkMetadata {
  originalName : string;
  size : Z;
  mimetype : string;
  uploadTime : Z;
  filePath : string;
  filename : string
}.

(** [req.file] as multer's disk storage leaves it. *)
Record UploadedFile : Type := mkUploadedFile {
  f_originalname : string;
  f_size : Z;
  f_mimetype : string;
  f_path : string;
  f_filename : string
}.

(** ** The JavaScript [Map] *)

Module JsMap.

Definition t : Type := list (string * Metadata).

Definition keys (m : t) : list string := map fst m.

(** Keys of a [Map] are unique. *)
Definition wf (m : t) : Prop := NoDup (keys m).

Fixpoint get (k : string) (m : t) : option Metadata :=
  match m with
  | [] => None
  | (k', v) :: m' => if String.eqb k k' then Some v else get k m'
  end.

(** [Map.prototype.set]: an existing key keeps its place, a new key is
    appended. *)
Fixpoint set (k : string) (v : Metadata) (m : t) : t :=
  match m with
  | [] => [(k, v)]
  | (k', v') :: m' =>
      if String.eqb k k' then (k, v) :: m' else (k', v') :: set k v m'
  end.

(** [Map.prototype.delete]: keys being unique, the entry of [k] is every
    entry whose key is [k]. *)
Definition delete (k : string) (m : t) : t :=
  filter (fun e => negb (String.eqb k (fst e))) m.

(** The sum of [size] over all entries. *)
Definition total (m : t) : Z :=
  fold_right (fun e acc => size (snd e) + acc) 0 m.

End JsMap.

(** ** The file system *)

Record Disk : Type := mkDisk {
  blobs : list string;      (* paths at which a file exists *)
  refused : list string     (* paths whose unlink the system rejects *)
}.

Definition mem (p : string) (l : list string) : bool :=
  existsb (String.eqb p) l.

Definition remove_path (p : string) (l : list string) : list string :=
  filter (fun q => negb (String.eqb p q)) l.

(** [fs.unlink p] fulfils when the file exists and the system lets it go,
    and rejects otherwise (ENOENT, EPERM, EBUSY). *)
Definition unlink_ok (p : string) (d : Disk) : bool :=
  mem p (blobs d) && negb (mem p (refused d)).

Definition unlink_disk (p : string) (d : Disk) : Disk :=
  if unlink_ok p d
  then {| blobs := remove_path p (blobs d); refused := refused d |}
  else d.

(** [fs.access p] fulfils exactly when the file exists. *)
Definition access_ok (p : string) (d : Disk) : bool := mem p (blobs d).

(** ** The store, the trace and the handler monad *)

Record Store : Type := mkStore {
  fileMetadata : JsMap.t;
  disk : Disk
}.

Inductive Event : Type :=
| EvSet (id : string)
| EvDelete (id : string)
| EvUnlink (path : string) (ok : bool)
| EvAccess (path : string) (ok : bool)
| EvLog (message subject : string)
| EvError (message subject : string).

Definition Trace : Type := list Event.

Definition M (A : Type) : Type := Store -> A * Store * Trace.

Definition ret {A : Type} (a : A) : M A := fun s => (a, s, []).

Definition bind {A B : Type} (m : M A) (f : A -> M B) : M B :=
  fun s =>
    let '(a, s1, t1) := m s in
    let '(b, s2, t2) := f a s1 in
    (b, s2, t1 ++ t2).

Declare Scope handler_scope.
Delimit Scope handler_scope with handler.
Notation "x <- m ;; k" := (bind m (fun x => k))
  (at level 100, m at next level, right associativity) : handler_scope.
Notation "m ;; k" := (bind m (fun _ => k))
  (at level 100, right associativity) : handler_scope.
Open Scope handler_scope.

Definition result_of {A : Type} (r : A * Store * Trace) : A := fst (fst r).
Definition store_of {A : Type} (r : A * Store * Trace) : Store := snd (fst r).
Definition trace_of {A : Type} (r : A * Store * Trace) : Trace := snd r.

Arguments result_of {A} r /.
Arguments store_of {A} r /.
Arguments trace_of {A} r /.

(** *** Primitive effects *)

Definition map_get (id : string) : M (option Metadata) :=
  fun s => (JsMap.get id (fileMetadata s), s, []).

Definition map_entries : M JsMap.t :=
  fun s => (fileMetadata s, s, []).

Definition map_set (id : string) (v : Metadata) : M unit :=
  fun s => (tt,
            {| fileMetadata := JsMap.set id v (fileMetadata s);
               disk := disk s |},
            [EvSet id]).

Definition map_delete (id : string) : M unit :=
  fun s => (tt,
            {| fileMetadata := JsMap.delete id (fileMetadata s);
               disk := disk s |},
            [EvDelete id]).

(** [await fs.unlink(p)]: [true] when the promise fulfils, [false] when it
    rejects. *)
Definition fs_unlink (p : string) : M bool :=
  fun s => (unlink_ok p (disk s),
            {| fileMetadata := fileMetadata s;
               disk := unlink_disk p (disk s) |},
            [EvUnlink p (unlink_ok p (disk s))]).

Definition fs_access (p : string) : M bool :=
  fun s => (access_ok p (disk s), s, [EvAccess p (access_ok p (disk s))]).

Definition console_log (message subject : string) : M unit :=
  fun s => (tt, s, [EvLog message subject]).

Definition console_error (message subject : string) : M unit :=
  fun s => (tt, s, [EvError message subject]).

(** [fs.unlink(p).catch(console.error)]: the rejection is printed and
    swallowed. *)
Definition unlink_catch (p : string) : M unit :=
  ok <- fs_unlink p ;;
  if ok then ret tt else console_error "unlink rejected" p.

Fixpoint for_each {A : Type} (f : A -> M unit) (l : list A) : M unit :=
  match l with
  | [] => ret tt
  | x :: l' => f x ;; for_each f l'
  end.

(** ** The expiry test *)

(** [now - metadata.uploadTime > 24 * 60 * 60 * 1000]. *)
Definition is_expired (now : Z) (metadata : Metadata) : bool :=
  now - uploadTime metadata >? TTL_MS.

(** ** [cleanExpiredFiles] *)

(** First loop: the identifiers pushed on [expiredFiles]. *)
Definition expiredFiles (now : Z) (m : JsMap.t) : list string :=
  map fst (filter (fun e => is_expired now (snd e)) m).

(** Body of the second loop.  When the identifier is no longer in the map,
    [metadata.filePath] throws and the [catch] prints the error. *)
Definition clean_one (fileId : string) : M unit :=
  found <- map_get fileId ;;
  match found with
  | None => console_error "Error deleting expired file" fileId
  | Some metadata =>
      ok <- fs_unlink (filePath metadata) ;;
      if ok
      then (map_delete fileId ;;
            console_log "Deleted expired file" fileId)
      else console_error "Error deleting expired file" fileId
  end.

Definition cleanExpiredFiles (now : Z) : M unit :=
  entries <- map_entries ;;
  for_each clean_one (expiredFiles now entries).

(** ** [manageStorageCapacity] *)

(** [{ id, ...metadata }]: an element of [files]. *)
Abbreviation FileEntry := (string * Metadata)%type (only parsing).

(** [Array.prototype.sort] with [(a, b) => a.uploadTime - b.uploadTime].
    The sort is stable and the comparator is a total preorder, so the result
    is the one stable arrangement by ascending [uploadTime]; insertion from
    the right computes it. *)
Fixpoint insert_by_time (x : FileEntry) (l : list FileEntry) : list FileEntry :=
  match l with
  | [] => [x]
  | y :: l' =>
      if uploadTime (snd x) <=? uploadTime (snd y)
      then x :: y :: l'
      else y :: insert_by_time x l'
  end.

Definition sort_by_time (l : list FileEntry) : list FileEntry :=
  fold_right insert_by_time [] l.

(** The variables of the eviction loop. *)
Record CapLoop : Type := mkCapLoop {
  totalSize : Z;
  files : list FileEntry
}.

(** [totalSize > MAX_STORAGE && files.length > 0]. *)
Definition cap_cond (l : CapLoop) : bool :=
  (totalSize l >? MAX_STORAGE) && (0 <? List.length (files l))%nat.

(** One turn of the [while] body: [files.shift()], then the [try] block.
    The empty case is not reached under [cap_cond]. *)
Definition cap_body (l : CapLoop) : M CapLoop :=
  match files l with
  | [] => ret l
  | oldestFile :: rest =>
      ok <- fs_unlink (filePath (snd oldestFile)) ;;
      if ok
      then (map_delete (fst oldestFile) ;;
            console_log "Deleted file due to storage limit" (fst oldestFile) ;;
            ret {| totalSize := totalSize l - size (snd oldestFile);
                   files := rest |})
      else (console_error "Error deleting file" (fst oldestFile) ;;
            ret {| totalSize := totalSize l; files := rest |})
  end.

Inductive LoopOutcome : Type :=
| Finished (iterations : nat)
| OutOfFuel.

(** The [while] loop, with a bound on the number of turns it may take and a
    count of the turns taken. *)
Fixpoint cap_while (fuel : nat) (taken : nat) (l : CapLoop) : M LoopOutcome :=
  if cap_cond l then
    match fuel with
    | O => ret OutOfFuel
    | S fuel' => l' <- cap_body l ;; cap_while fuel' (S taken) l'
    end
  else ret (Finished taken).

(** The state of the loop variables when the loop is entered. *)
Definition cap_init (entries : JsMap.t) : CapLoop :=
  let sorted := sort_by_time entries in
  {| totalSize := fold_left (fun acc file => acc + size (snd file)) sorted 0;
     files := sorted |}.

Definition manageStorageCapacity_within (fuel : nat) : M LoopOutcome :=
  entries <- map_entries ;;
  cap_while fuel 0 (cap_init entries).

(** The pass itself.  One turn per record is enough fuel, as proved below,
    so the outcome is dropped. *)
Definition manageStorageCapacity : M unit :=
  entries <- map_entries ;;
  cap_while (List.length entries) 0 (cap_init entries) ;;
  ret tt.

(** ** Responses *)

Inductive Body : Type :=
| ErrorJson (error : string)
| UploadJson (fileId message : string) (expiresAt : Z)
| FileJson (fileId originalName : string) (size : Z) (mimetype : string)
           (uploadTime expiresAt : Z)
| SendFile (attachmentName : option string) (contentType path : string)
| Text (content : string)
| EmbedPage (title : string) (shownName : string) (shownSize : Z)
            (image : option string) (redirectId : string).

Record Response : Type := mkResponse {
  status : Z;
  body : Body
}.

Definition not_found : Response := mkResponse 404 (ErrorJson "File not found").
Definition has_expired : Response := mkResponse 404 (ErrorJson "File has expired").
Definition not_on_disk : Response :=
  mkResponse 404 (ErrorJson "File not found on disk").
Definition not_previewable : Response :=
  mkResponse 400 (ErrorJson "File type not previewable").

(** ** [POST /api/upload] *)

Fixpoint last_index (c : ascii) (s : string) : option nat :=
  match s with
  | EmptyString => None
  | String a s' =>
      match last_index c s' with
      | Some i => Some (S i)
      | None => if Ascii.eqb a c then Some O else None
      end
  end.

(** [path.basename(name, path.extname(name))] for a name without directory
    separator: the part before the last dot, unless that dot comes first. *)
Definition basename_no_ext (name : string) : string :=
  match last_index "."%char name with
  | Some (S i) => substring 0 (S i) name
  | _ => name
  end.

(** The [metadata] object of the upload handler, [uploadTime] being the clock
    reading [stored]. *)
Definition stored_metadata (f : UploadedFile) (stored : Z) : Metadata :=
  {| originalName := f_originalname f;
     size := f_size f;
     mimetype := f_mimetype f;
     uploadTime := stored;
     filePath := f_path f;
     filename := f_filename f |}.

(** The handler runs after multer has written the blob at [f_path]; it
    writes no file itself.  It reads [Date.now()] twice: [stored] fills
    [uploadTime], [responded] is read when the response is built, after the
    capacity pass. *)
Definition api_upload (file : option UploadedFile) (stored responded : Z)
  : M Response :=
  match file with
  | None => ret (mkResponse 400 (ErrorJson "No file uploaded"))
  | Some f =>
      let fileId := basename_no_ext (f_filename f) in
      let metadata := stored_metadata f stored in
      map_set fileId metadata ;;
      manageStorageCapacity ;;
      ret (mkResponse 200
             (UploadJson fileId "File uploaded successfully"
                         (responded + TTL_MS)))
  end.

(** ** [GET /api/file/:fileId] *)

(** This handler does not await its unlink; the unlink and its outcome are
    recorded here as part of the handler's run. *)

Definition file_json (fileId : string) (metadata : Metadata) : Response :=
  mkResponse 200
    (FileJson fileId (originalName metadata) (size metadata)
              (mimetype metadata) (uploadTime metadata)
              (uploadTime metadata + TTL_MS)).

Definition api_file (fileId : string) (now : Z) : M Response :=
  found <- map_get fileId ;;
  match found with
  | None => ret not_found
  | Some metadata =>
      if is_expired now metadata
      then (map_delete fileId ;;
            unlink_catch (filePath metadata) ;;
            ret has_expired)
      else ret (file_json fileId metadata)
  end.

(** ** [GET /api/download/:fileId] *)

Definition api_download (fileId : string) (now : Z) : M Response :=
  found <- map_get fileId ;;
  match found with
  | None => ret not_found
  | Some metadata =>
      if is_expired now metadata
      then (map_delete fileId ;;
            unlink_catch (filePath metadata) ;;
            ret has_expired)
      else
        (on_disk <- fs_access (filePath metadata) ;;
         if on_disk
         then ret (mkResponse 200
                     (SendFile (Some (originalName metadata))
                               (mimetype metadata) (filePath metadata)))
         else (map_delete fileId ;; ret not_on_disk))
  end.

(** ** [GET /api/preview/:fileId] *)

Definition previewableTypes : list string :=
  ["image/"; "text/"; "application/json"; "application/pdf"].

(** [previewableTypes.some(type => metadata.mimetype.startsWith(type))]. *)
Definition isPreviewable (metadata : Metadata) : bool :=
  existsb (fun type => String.prefix type (mimetype metadata)) previewableTypes.

Definition api_preview (fileId : string) (now : Z) : M Response :=
  found <- map_get fileId ;;
  match found with
  | None => ret not_found
  | Some metadata =>
      if is_expired now metadata
      then (map_delete fileId ;;
            unlink_catch (filePath metadata) ;;
            ret has_expired)
      else if isPreviewable metadata
      then ret (mkResponse 200
                  (SendFile None (mimetype metadata) (filePath metadata)))
      else ret not_previewable
  end.

(** ** [GET /file/:fileId], the share page of [src/backend/server.js] *)

(** The handler reads no clock.  The page carries the original name as title
    and in the description, the size the description prints, the preview
    link when the type starts with [image/], and the identifier the page
    redirects to. *)
Definition file_page (fileId : string) : M Response :=
  found <- map_get fileId ;;
  match found with
  | None => ret (mkResponse 404 (Text "File not found"))
  | Some metadata =>
      ret (mkResponse 200
             (EmbedPage (originalName metadata) (originalName metadata)
                        (size metadata)
                        (if String.prefix "image/" (mimetype metadata)
                         then Some fileId else None)
                        fileId))
  end.

(** ** Requests and runs *)

Inductive Request : Type :=
| Upload (file : option UploadedFile) (stored responded : Z)
| GetFile (fileId : string) (now : Z)
| Download (fileId : string) (now : Z)
| Preview (fileId : string) (now : Z)
| FilePage (fileId : string)
| SweepExpired (now : Z)
| SweepCapacity.

Definition handle (r : Request) : M (option Response) :=
  match r with
  | Upload file stored responded =>
      res <- api_upload file stored responded ;; ret (Some res)
  | GetFile fileId now => res <- api_file fileId now ;; ret (Some res)
  | Download fileId now => res <- api_download fileId now ;; ret (Some res)
  | Preview fileId now => res <- api_preview fileId now ;; ret (Some res)
  | FilePage fileId => res <- file_page fileId ;; ret (Some res)
  | SweepExpired now => cleanExpiredFiles now ;; ret None
  | SweepCapacity => manageStorageCapacity ;; ret None
  end.

(** The store after a sequence of requests served one after the other. *)
Fixpoint serve (rs : list Request) (s : Store) : Store :=
  match rs with
  | [] => s
  | r :: rs' => serve rs' (store_of (handle r s))
  end.

(** The identifier an upload request registers, if it carries a file. *)
Definition uploads (r : Request) : option string :=
  match r with
  | Upload (Some f) _ _ => Some (basename_no_ext (f_filename f))
  | _ => None
  end.

(** ** Vocabulary of the statements *)

(** [true] when some [fs.unlink] of the trace was rejected. *)
Definition unlink_rejected (t : Trace) : bool :=
  existsb (fun e => match e with EvUnlink _ false => true | _ => false end) t.


(** Ascending [uploadTime], the order the comparator asks for. *)
Definition time_le (a b : FileEntry) : Prop :=
  uploadTime (snd a) <= uploadTime (snd b).

(** What a turn of the eviction loop leaves behind. *)
Definition evicted_store (e : FileEntry) (s : Store) : Store :=
  {| fileMetadata := JsMap.delete (fst e) (fileMetadata s);
     disk := unlink_disk (filePath (snd e)) (disk s) |}.

Definition evicted_trace (e : FileEntry) : Trace :=
  [EvUnlink (filePath (snd e)) true; EvDelete (fst e);
   EvLog "Deleted file due to storage limit" (fst e)].

Definition skipped_trace (e : FileEntry) : Trace :=
  [EvUnlink (filePath (snd e)) false; EvError "Error deleting file" (fst e)].

(** What lazy eviction leaves behind: the entry is dropped, then the blob is
    unlinked and a rejection is printed. *)
Definition lazy_store (fileId : string) (metadata : Metadata) (s : Store) : Store :=
  {| fileMetadata := JsMap.delete fileId (fileMetadata s);
     disk := unlink_disk (filePath metadata) (disk s) |}.

Definition lazy_trace (fileId : string) (metadata : Metadata) (s : Store) : Trace :=
  EvDelete fileId ::
  EvUnlink (filePath metadata) (unlink_ok (filePath metadata) (disk s)) ::
  (if unlink_ok (filePath metadata) (disk s) then []
   else [EvError "unlink rejected" (filePath metadata)]).

(** The store after the download handler purged an entry without blob. *)
Definition purged_store (fileId : string) (s : Store) : Store :=
  {| fileMetadata := JsMap.delete fileId (fileMetadata s); disk := disk s |}.

(** Requests that read a file: metadata, download, preview, share page. *)
Definition is_access (r : Request) : bool :=
  match r with
  | GetFile _ _ | Download _ _ | Preview _ _ | FilePage _ => true
  | _ => false
  end.

(** [s.startsWith(pre)]. *)
Definition starts_with (pre s : string) : Prop :=
  exists rest, s = (pre ++ rest)%string.

(** The trace of a sequence of requests served one after the other. *)
Fixpoint serve_trace (rs : list Request) (s : Store) : Trace :=
  match rs with
  | [] => []
  | r :: rs' => trace_of (handle r s) ++ serve_trace rs' (store_of (handle r s))
  end.

(** The capacity pass printed that it deleted [fileId]. *)
Definition evicted_for_capacity (fileId : string) (t : Trace) : Prop :=
  In (EvLog "Deleted file due to storage limit" fileId) t.

(** The clock read by the request is within the time to live of a record
    uploaded at [uploaded]. *)
Definition within_ttl (uploaded : Z) (r : Request) : Prop :=
  match r with
  | GetFile _ now | Download _ now | Preview _ now | SweepExpired now =>
      now - uploaded <= TTL_MS
  | _ => True
  end.

(** An upload request registers another identifier and another blob path. *)
Definition other_upload (fileId path : string) (r : Request) : Prop :=
  match r with
  | Upload (Some f) _ _ =>
      basename_no_ext (f_filename f) <> fileId /\ f_path f <> path
  | _ => True
  end.

(** The record [metadata] sits in the index under [fileId], its blob is on
    disk, and no other record points at that blob. *)
Definition settled (fileId : string) (metadata : Metadata) (s : Store) : Prop :=
  JsMap.wf (fileMetadata s) /\
  JsMap.get fileId (fileMetadata s) = Some metadata /\
  access_ok (filePath metadata) (disk s) = true /\
  forall e, In e (fileMetadata s) -> fst e <> fileId ->
            filePath (snd e) <> filePath metadata.



(** ** Concrete stores *)

Definition GiB : Z := 1024 * 1024 * 1024.

(** A one-gibibyte archive uploaded at [time] under identifier [id]. *)
Definition archive (id : string) (time : Z) : string * Metadata :=
  (id, {| originalName := (id ++ ".zip")%string;
          size := GiB;
          mimetype := "application/zip";
          uploadTime := time;
          filePath := ("uploads/" ++ id ++ ".zip")%string;
          filename := (id ++ ".zip")%string |}).

(** Six archives, six gibibytes, distinct upload times. *)
Definition six_archives : JsMap.t :=
  [archive "a1" 1000; archive "b2" 2000; archive "c3" 3000;
   archive "d4" 4000; archive "e5" 5000; archive "f6" 6000].

Definition all_blobs : list string := map (fun e => filePath (snd e)) six_archives.

(** The six archives with every blob in place. *)
Definition six_on_disk : Store :=
  {| fileMetadata := six_archives;
     disk := {| blobs := all_blobs; refused := [] |} |}.

(** The six archives after the upload directory was emptied behind the
    server's back: every unlink is rejected. *)
Definition six_blobs_gone : Store :=
  {| fileMetadata := six_archives;
     disk := {| blobs := []; refused := [] |} |}.

(** The six archives when only the blob of the oldest one is gone. *)
Definition oldest_blob_gone : Store :=
  {| fileMetadata := six_archives;
     disk := {| blobs := tl all_blobs; refused := [] |} |}.

(** A small text file as multer hands it to the upload handler, and the six
    archives at the moment multer has written that file. *)
Definition notes : UploadedFile :=
  {| f_originalname := "notes.txt";
     f_size := 10;
     f_mimetype := "text/plain";
     f_path := "uploads/0f3a.txt";
     f_filename := "0f3a.txt" |}.

Definition six_and_notes_blob : Store :=
  {| fileMetadata := six_archives;
     disk := {| blobs := "uploads/0f3a.txt" :: all_blobs; refused := [] |} |}.

(** An empty index at the moment multer has written the text file. *)
Definition only_notes_blob : Store :=
  {| fileMetadata := [];
     disk := {| blobs := ["uploads/0f3a.txt"]; refused := [] |} |}.

(** A fresh picture whose blob has vanished from the disk. *)
Definition picture : Metadata :=
  {| originalName := "cat.png";
     size := 2048;
     mimetype := "image/png";
     uploadTime := 1000;
     filePath := "uploads/77aa.png";
     filename := "77aa.png" |}.

Definition picture_blob_gone : Store :=
  {| fileMetadata := [("77aa", picture)];
     disk := {| blobs := []; refused := [] |} |}.

(** The same picture with its blob in place. *)
Definition picture_on_disk : Store :=
  {| fileMetadata := [("77aa", picture)];
     disk := {| blobs := ["uploads/77aa.png"]; refused := [] |} |}.

(** ** The one-loop expiry sweep of [src/backend/server.js] *)

(** Body of the loop over [fileMetadata.entries()]: the record is unlinked
    and deleted when it is expired, and a rejected unlink is printed.  The
    loop deletes nothing but the entry it stands on, so the live iterator
    visits the entries the map held when the loop started. *)
Definition backend_clean_entry (now : Z) (entry : FileEntry) : M unit :=
  if is_expired now (snd entry)
  then (ok <- fs_unlink (filePath (snd entry)) ;;
        if ok
        then map_delete (fst entry)
        else console_error "unlink rejected" (filePath (snd entry)))
  else ret tt.

Definition backend_cleanExpiredFiles (now : Z) : M unit :=
  entries <- map_entries ;;
  for_each (backend_clean_entry now) entries.

(** ** The download handler of [src/backend/server.js], last revision *)



(** ** The multer file name *)

(** [`${fileId}${ext}`], [fileId] being the hexadecimal token and [ext] the
    result of [path.extname(file.originalname)]. *)
Definition storage_filename (fileId ext : string) : string :=
  (fileId ++ ext)%string.

(** A digit of [toString('hex')]. *)
Definition is_hex_digit (c : ascii) : bool :=
  let n := nat_of_ascii c in
  ((48 <=? n) && (n <=? 57) || (97 <=? n) && (n <=? 102))%nat.

Fixpoint all_chars (p : ascii -> bool) (s : string) : bool :=
  match s with
  | EmptyString => true
  | String c s' => p c && all_chars p s'
  end.

(** What [path.extname] returns: nothing, or a dot followed by characters
    that are not dots. *)
Definition is_extension (ext : string) : Prop :=
  ext = "" \/
  exists rest, ext = String "."%char rest /\
               all_chars (fun c => negb (Ascii.eqb c "."%char)) rest = true.

(** ** The file page script: countdown, preview choice, text preview *)

(** [element.textContent] of the countdown, before the template literal
    prints the numbers. *)
Inductive CountdownText : Type :=
| TextExpired
| TextHoursMinutes (hours minutes : Z)
| TextMinutesSeconds (minutes seconds : Z)
| TextSeconds (seconds : Z).

Record ExpiryDisplay : Type := mkExpiryDisplay {
  textContent : CountdownText;
  color : string
}.

(** [updateExpiryTime(expiryDate)], with the reading [now] of [new Date()].
    Past the first test [diff] is positive, where [Math.floor] of a quotient
    and [%] are [Z.div] and [Z.modulo]. *)
Definition updateExpiryTime (expiryDate now : Z) : ExpiryDisplay :=
  let diff := expiryDate - now in
  if diff <=? 0 then {| textContent := TextExpired; color := "#ff6b6b" |}
  else
    let hours := diff / (1000 * 60 * 60) in
    let minutes := (diff mod (1000 * 60 * 60)) / (1000 * 60) in
    let seconds := (diff mod (1000 * 60)) / 1000 in
    {| textContent :=
         if 0 <? hours then TextHoursMinutes hours minutes
         else if 0 <? minutes then TextMinutesSeconds minutes seconds
         else TextSeconds seconds;
       color :=
         if diff <? 3600000 then "#ff9800"
         else if diff <? 7200000 then "#ffeb3b"
         else "#4caf50" |}.

(** What [loadPreview] puts in the preview container.  The image, text,
    video and audio previews fetch [/api/preview/:fileId]; the placeholders
    fetch nothing. *)
Inductive PreviewChoice : Type :=
| ImagePreview (fileId : string)
| TextPreview (fileId : string)
| PdfPlaceholder
| VideoPreview (fileId : string)
| AudioPreview (fileId : string)
| NoPreview.

(** [loadPreview(fileInfo)]; [toLowerCase] is [String.prototype.toLowerCase]. *)
Definition loadPreview (toLowerCase : string -> string)
           (fileId mimetype : string) : PreviewChoice :=
  let mimetype := toLowerCase mimetype in
  if String.prefix "image/" mimetype then ImagePreview fileId
  else if String.prefix "text/" mimetype || String.eqb mimetype "application/json"
  then TextPreview fileId
  else if String.eqb mimetype "application/pdf" then PdfPlaceholder
  else if String.prefix "video/" mimetype then VideoPreview fileId
  else if String.prefix "audio/" mimetype then AudioPreview fileId
  else NoPreview.

(** The identifier whose preview the choice fetches from the server. *)
Definition fetched_preview (c : PreviewChoice) : option string :=
  match c with
  | ImagePreview id | TextPreview id | VideoPreview id | AudioPreview id => Some id
  | PdfPlaceholder | NoPreview => None
  end.

(** Lower case of the letters A to Z, every other character kept. *)
Definition ascii_lower (c : ascii) : ascii :=
  let n := nat_of_ascii c in
  if ((65 <=? n) && (n <=? 90))%nat then ascii_of_nat (n + 32) else c.

Fixpoint ascii_toLowerCase (s : string) : string :=
  match s with
  | EmptyString => EmptyString
  | String c s' => String (ascii_lower c) (ascii_toLowerCase s')
  end.




(** ** More vocabulary *)

(** Some record of the map keeps its blob at [path]. *)
Definition tracked_path (path : string) (m : JsMap.t) : Prop :=
  exists e, In e m /\ filePath (snd e) = path.

(** The disk [after] has the refusals of [before], holds no blob that
    [before] did not hold, and still holds every blob of [before] that no
    record of [tracked] points at. *)
Definition blobs_kept (tracked : JsMap.t) (before after : Disk) : Prop :=
  refused after = refused before /\
  forall p,
    (mem p (blobs after) = true -> mem p (blobs before) = true) /\
    (~ tracked_path p tracked -> mem p (blobs after) = mem p (blobs before)).

(** The blob path an upload request brings, if it carries a file. *)
Definition upload_path (r : Request) : option string :=
  match r with
  | Upload (Some f) _ _ => Some (f_path f)
  | _ => None
  end.

(** A reading request that finds nothing to evict or purge: its identifier
    is absent, or its record is within the time to live and, for a download,
    has its blob on disk. *)
Definition quiet_read (s : Store) (r : Request) : Prop :=
  match r with
  | GetFile id now | Preview id now =>
      match JsMap.get id (fileMetadata s) with
      | None => True
      | Some metadata => now - uploadTime metadata <= TTL_MS
      end
  | Download id now =>
      match JsMap.get id (fileMetadata s) with
      | None => True
      | Some metadata =>
          now - uploadTime metadata <= TTL_MS /\
          access_ok (filePath metadata) (disk s) = true
      end
  | FilePage _ => True
  | _ => False
  end.

(** The identifier a reading request names. *)
Definition read_target (r : Request) : option string :=
  match r with
  | GetFile id _ | Download id _ | Preview id _ | FilePage id => Some id
  | _ => None
  end.

(** * Properties *)

(** Unique keys of a map written out in full. *)
Ltac distinct_keys :=
  unfold JsMap.wf; simpl;
  repeat (constructor; [simpl; intuition discriminate|]); constructor.

(** ** The map *)

Module JsMapFacts.
Import JsMap.

Lemma get_None k (m : t) : get k m = None <-> ~ In k (keys m).
Proof.
  induction m as [|[k' v] m IH]; simpl.
  - tauto.
  - destruct (String.eqb_spec k k') as [->|Hne].
    + split; [discriminate | intros H; exfalso; apply H; now left].
    + rewrite IH. split; intros H; [intros [E|I]; [congruence | tauto] | tauto].
Qed.

Lemma get_In k v (m : t) : get k m = Some v -> In (k, v) m.
Proof.
  induction m as [|[k' v'] m IH]; simpl; [discriminate|].
  destruct (String.eqb_spec k k') as [->|Hne].
  - intros [= ->]. now left.
  - intros H. right. auto.
Qed.

Lemma In_keys k v (m : t) : In (k, v) m -> In k (keys m).
Proof. intros H. apply (in_map fst) in H. exact H. Qed.

Lemma In_get k v (m : t) : wf m -> In (k, v) m -> get k m = Some v.
Proof.
  unfold wf. induction m as [|[k' v'] m IH]; simpl; [tauto|].
  intros Hnd [E|I].
  - injection E as -> ->. now rewrite String.eqb_refl.
  - inversion Hnd as [|? ? Hni Hnd']; subst.
    destruct (String.eqb_spec k k') as [->|Hne].
    + exfalso. apply Hni. eapply In_keys; eauto.
    + auto.
Qed.

Lemma keys_filter p (m : t) k : In k (keys (filter p m)) -> In k (keys m).
Proof.
  unfold keys. rewrite !in_map_iff. intros [e [E I]].
  apply filter_In in I. exists e. tauto.
Qed.

Lemma wf_filter p (m : t) : wf m -> wf (filter p m).
Proof.
  unfold wf. induction m as [|e m IH]; simpl; [auto|].
  intros Hnd. inversion Hnd as [|? ? Hni Hnd']; subst.
  destruct (p e); simpl; auto.
  constructor; auto. intros H. apply Hni. eapply keys_filter; eauto.
Qed.

(** Dropping entries never changes the value under a key that stays. *)
Lemma get_filter p (m : t) k :
  wf m -> get k (filter p m) = None \/ get k (filter p m) = get k m.
Proof.
  intros Hwf. destruct (get k (filter p m)) as [v|] eqn:E; [right | now left].
  apply get_In in E. apply filter_In in E. destruct E as [I _].
  symmetry. now apply In_get.
Qed.

Lemma get_filter_None p (m : t) k : get k m = None -> get k (filter p m) = None.
Proof.
  rewrite !get_None. intros H I. apply H. eapply keys_filter; eauto.
Qed.

Lemma get_delete_same k (m : t) : get k (delete k m) = None.
Proof.
  apply get_None. unfold delete, keys. rewrite in_map_iff.
  intros [[k' v] [E I]]. simpl in E. subst k'.
  apply filter_In in I. simpl in I. rewrite String.eqb_refl in I.
  destruct I; discriminate.
Qed.

Lemma get_delete_other k k' (m : t) : k <> k' -> get k' (delete k m) = get k' m.
Proof.
  intros Hne. induction m as [|[k0 v] m IH]; simpl; [reflexivity|].
  destruct (String.eqb_spec k k0) as [->|Hne0]; simpl.
  - destruct (String.eqb_spec k' k0); [congruence | exact IH].
  - destruct (String.eqb_spec k' k0); [reflexivity | exact IH].
Qed.

Lemma wf_delete k (m : t) : wf m -> wf (delete k m).
Proof. apply wf_filter. Qed.

Lemma delete_absent k (m : t) : ~ In k (keys m) -> delete k m = m.
Proof.
  induction m as [|[k0 v] m IH]; simpl; [reflexivity|].
  intros H. destruct (String.eqb_spec k k0) as [->|Hne]; simpl.
  - exfalso. apply H. now left.
  - f_equal. apply IH. tauto.
Qed.

Lemma In_delete k e (m : t) : In e (delete k m) <-> In e m /\ fst e <> k.
Proof.
  unfold delete. rewrite filter_In.
  destruct (String.eqb_spec k (fst e)) as [->|Hne]; simpl.
  - split; [intros [_ H]; discriminate | tauto].
  - split; intros [H _]; split; auto.
Qed.

Lemma total_delete k v (m : t) :
  wf m -> In (k, v) m -> total (delete k m) = total m - size v.
Proof.
  unfold wf. induction m as [|[k0 v0] m IH]; simpl; [tauto|].
  intros Hnd [E|I]; inversion Hnd as [|? ? Hni Hnd']; subst.
  - injection E as -> ->. rewrite String.eqb_refl. simpl.
    fold (delete k m). rewrite delete_absent by exact Hni.
    unfold total. lia.
  - destruct (String.eqb_spec k k0) as [->|Hne]; simpl.
    + exfalso. apply Hni. eapply In_keys; eauto.
    + fold (delete k m). fold (total (delete k m)). rewrite IH by auto.
      unfold total. lia.
Qed.


Lemma get_set_same k v (m : t) : get k (set k v m) = Some v.
Proof.
  induction m as [|[k0 v0] m IH]; simpl.
  - now rewrite String.eqb_refl.
  - destruct (String.eqb_spec k k0) as [->|Hne]; simpl.
    + now rewrite String.eqb_refl.
    + destruct (String.eqb_spec k k0); [congruence | exact IH].
Qed.

Lemma get_set_other k k' v (m : t) : k <> k' -> get k' (set k v m) = get k' m.
Proof.
  intros Hne. induction m as [|[k0 v0] m IH]; simpl.
  - destruct (String.eqb_spec k' k); [congruence | reflexivity].
  - destruct (String.eqb_spec k k0) as [->|Hne0]; simpl.
    + destruct (String.eqb_spec k' k0); [congruence | reflexivity].
    + destruct (String.eqb_spec k' k0); [reflexivity | exact IH].
Qed.

Lemma keys_set k v (m : t) k' : In k' (keys (set k v m)) <-> k' = k \/ In k' (keys m).
Proof.
  induction m as [|[k0 v0] m IH]; simpl.
  - intuition.
  - destruct (String.eqb_spec k k0) as [->|Hne]; simpl.
    + intuition.
    + rewrite IH. intuition.
Qed.

Lemma wf_set k v (m : t) : wf m -> wf (set k v m).
Proof.
  unfold wf. induction m as [|[k0 v0] m IH]; simpl.
  - intros _. constructor; [simpl; tauto | constructor].
  - intros Hnd. inversion Hnd as [|? ? Hni Hnd']; subst.
    destruct (String.eqb_spec k k0) as [->|Hne]; simpl.
    + constructor; auto.
    + constructor; auto. fold (keys (set k v m)). rewrite keys_set.
      intros [E|I]; [congruence | contradiction].
Qed.

End JsMapFacts.

(** ** The sort *)

Section Sorting.

Lemma insert_by_time_perm x l : Permutation (insert_by_time x l) (x :: l).
Proof.
  induction l as [|y l IH]; simpl; [reflexivity|].
  destruct (uploadTime (snd x) <=? uploadTime (snd y)); [reflexivity|].
  rewrite IH. apply perm_swap.
Qed.

Lemma sort_by_time_perm l : Permutation (sort_by_time l) l.
Proof.
  induction l as [|x l IH]; simpl; [reflexivity|].
  rewrite insert_by_time_perm. now constructor.
Qed.

Lemma sort_by_time_In e l : In e (sort_by_time l) <-> In e l.
Proof.
  split; apply Permutation_in;
    [apply sort_by_time_perm | symmetry; apply sort_by_time_perm].
Qed.

Lemma sort_by_time_length l :
  List.length (sort_by_time l) = List.length l.
Proof. apply Permutation_length, sort_by_time_perm. Qed.

Lemma sort_by_time_keys l :
  NoDup (map fst l) -> NoDup (map fst (sort_by_time l)).
Proof.
  apply Permutation_NoDup, Permutation_map. symmetry.
  apply sort_by_time_perm.
Qed.

Lemma insert_by_time_sorted x l :
  StronglySorted time_le l -> StronglySorted time_le (insert_by_time x l).
Proof.
  induction l as [|y l IH]; simpl; intros Hs.
  - constructor; [constructor | constructor].
  - apply StronglySorted_inv in Hs. destruct Hs as [Hs Hy].
    destruct (Z.leb_spec (uploadTime (snd x)) (uploadTime (snd y))) as [Hle|Hgt].
    + constructor; [constructor; auto|].
      constructor; [exact Hle|].
      eapply Forall_impl; [|exact Hy]. unfold time_le. intros; lia.
    + constructor; [auto|].
      rewrite Forall_forall. intros e He.
      apply (Permutation_in _ (insert_by_time_perm x l)) in He.
      destruct He as [<-|He].
      * unfold time_le. lia.
      * rewrite Forall_forall in Hy. auto.
Qed.

Lemma sort_by_time_sorted l : StronglySorted time_le (sort_by_time l).
Proof.
  induction l as [|x l IH]; simpl; [constructor|].
  now apply insert_by_time_sorted.
Qed.

Lemma total_perm (l l' : JsMap.t) :
  Permutation l l' -> JsMap.total l = JsMap.total l'.
Proof.
  unfold JsMap.total.
  induction 1; simpl; try lia.
Qed.

Lemma fold_left_total (l : list FileEntry) a :
  fold_left (fun acc file => acc + size (snd file)) l a = a + JsMap.total l.
Proof.
  revert a. induction l as [|x l IH]; intros a; simpl.
  - lia.
  - rewrite IH. unfold JsMap.total. lia.
Qed.

(** On entry the running total is the sum over the map. *)
Lemma cap_init_total (m : JsMap.t) : totalSize (cap_init m) = JsMap.total m.
Proof.
  unfold cap_init. simpl. rewrite fold_left_total.
  rewrite (total_perm _ _ (sort_by_time_perm m)). lia.
Qed.

End Sorting.

(** ** The eviction loop, turn by turn *)

Section CapacityLoop.

Lemma unlink_disk_rejected p d : unlink_ok p d = false -> unlink_disk p d = d.
Proof. unfold unlink_disk. now intros ->. Qed.

Lemma cap_body_ok tot e rest s :
  unlink_ok (filePath (snd e)) (disk s) = true ->
  cap_body {| totalSize := tot; files := e :: rest |} s =
  ({| totalSize := tot - size (snd e); files := rest |},
   evicted_store e s, evicted_trace e).
Proof.
  intros H. unfold cap_body, bind, fs_unlink, map_delete, console_log, ret.
  simpl. rewrite H. reflexivity.
Qed.

Lemma cap_body_rejected tot e rest s :
  unlink_ok (filePath (snd e)) (disk s) = false ->
  cap_body {| totalSize := tot; files := e :: rest |} s =
  ({| totalSize := tot; files := rest |}, s, skipped_trace e).
Proof.
  intros H. unfold cap_body, bind, fs_unlink, console_error, ret.
  simpl. rewrite H. rewrite unlink_disk_rejected by exact H.
  destruct s; reflexivity.
Qed.

Lemma cap_cond_cons tot e rest :
  cap_cond {| totalSize := tot; files := e :: rest |} = (tot >? MAX_STORAGE).
Proof. unfold cap_cond. simpl. apply andb_true_r. Qed.

Lemma cap_cond_nil tot : cap_cond {| totalSize := tot; files := [] |} = false.
Proof. unfold cap_cond. simpl. apply andb_false_r. Qed.

(** Induction over the turns of the loop: the loop stops, or takes a turn
    whose unlink is fulfilled, or takes a turn whose unlink is rejected. *)
Lemma cap_while_ind
      (P : nat -> CapLoop -> Store -> LoopOutcome * Store * Trace -> Prop) :
  (forall taken l s, cap_cond l = false -> P taken l s (Finished taken, s, [])) ->
  (forall taken tot e rest s r,
      tot > MAX_STORAGE ->
      unlink_ok (filePath (snd e)) (disk s) = true ->
      P (S taken) {| totalSize := tot - size (snd e); files := rest |}
        (evicted_store e s) r ->
      P taken {| totalSize := tot; files := e :: rest |} s
        (result_of r, store_of r, evicted_trace e ++ trace_of r)) ->
  (forall taken tot e rest s r,
      tot > MAX_STORAGE ->
      unlink_ok (filePath (snd e)) (disk s) = false ->
      P (S taken) {| totalSize := tot; files := rest |} s r ->
      P taken {| totalSize := tot; files := e :: rest |} s
        (result_of r, store_of r, skipped_trace e ++ trace_of r)) ->
  forall fuel taken l s,
    (List.length (files l) <= fuel)%nat ->
    P taken l s (cap_while fuel taken l s).
Proof.
  intros Hstop Hok Hrej.
  induction fuel as [|fuel IH]; intros taken [tot fs] s Hlen; simpl in Hlen.
  - destruct fs; [|simpl in Hlen; lia].
    unfold cap_while. rewrite cap_cond_nil. apply Hstop, cap_cond_nil.
  - simpl. destruct (cap_cond {| totalSize := tot; files := fs |}) eqn:Hc.
    + destruct fs as [|e rest]; [rewrite cap_cond_nil in Hc; discriminate|].
      rewrite cap_cond_cons in Hc. apply Z.gtb_lt in Hc.
      simpl in Hlen.
      unfold bind.
      destruct (unlink_ok (filePath (snd e)) (disk s)) eqn:Hu.
      * rewrite cap_body_ok by exact Hu.
        specialize (IH (S taken)
                       {| totalSize := tot - size (snd e); files := rest |}
                       (evicted_store e s)).
        destruct (cap_while fuel (S taken) _ (evicted_store e s))
          as [[o s2] t2] eqn:E.
        apply (Hok taken tot e rest s (o, s2, t2)); [lia | exact Hu |].
        apply IH. simpl. lia.
      * rewrite cap_body_rejected by exact Hu.
        specialize (IH (S taken) {| totalSize := tot; files := rest |} s).
        destruct (cap_while fuel (S taken) _ s) as [[o s2] t2] eqn:E.
        apply (Hrej taken tot e rest s (o, s2, t2)); [lia | exact Hu |].
        apply IH. simpl. lia.
    + apply Hstop. exact Hc.
Qed.

End CapacityLoop.

(** ** What a capacity pass does to the store *)

Section CapacityPass.
Import JsMap JsMapFacts.

Lemma cap_while_stop fuel taken l s :
  cap_cond l = false -> cap_while fuel taken l s = (Finished taken, s, []).
Proof. intros H. destruct fuel; simpl; rewrite H; reflexivity. Qed.

(** The pass is the loop run on the sorted entries. *)
Lemma manageStorageCapacity_unfold s :
  let r := cap_while (List.length (fileMetadata s)) 0
                     (cap_init (fileMetadata s)) s in
  manageStorageCapacity s = (tt, store_of r, trace_of r).
Proof.
  unfold manageStorageCapacity, bind, map_entries, ret. simpl.
  destruct (cap_while _ 0 _ s) as [[o s'] t]. simpl.
  now rewrite app_nil_r.
Qed.

Lemma cap_init_fits (m : JsMap.t) :
  (List.length (files (cap_init m)) <= List.length m)%nat.
Proof. unfold cap_init. simpl. rewrite sort_by_time_length. lia. Qed.

(** The loop stops within one turn per candidate. *)
Lemma cap_while_finishes fuel taken l s :
  (List.length (files l) <= fuel)%nat ->
  exists n, (n <= List.length (files l))%nat /\
            result_of (cap_while fuel taken l s) = Finished (taken + n).
Proof.
  apply (cap_while_ind
           (fun taken l s r =>
              exists n, (n <= List.length (files l))%nat /\
                        result_of r = Finished (taken + n))).
  - intros tk l0 s0 _. exists 0%nat. split; [lia|]. simpl. f_equal. lia.
  - intros tk tot e rest s0 r _ _ [n [Hn Hr]].
    exists (S n). simpl in *. split; [lia|]. rewrite Hr. f_equal. lia.
  - intros tk tot e rest s0 r _ _ [n [Hn Hr]].
    exists (S n). simpl in *. split; [lia|]. rewrite Hr. f_equal. lia.
Qed.

(** More fuel than one turn per candidate changes nothing. *)
Lemma cap_while_fuel fuel fuel' taken l s :
  (List.length (files l) <= fuel)%nat ->
  (List.length (files l) <= fuel')%nat ->
  cap_while fuel' taken l s = cap_while fuel taken l s.
Proof.
  intros Hf. revert fuel'.
  apply (cap_while_ind
           (fun taken l s r =>
              forall fuel', (List.length (files l) <= fuel')%nat ->
                            cap_while fuel' taken l s = r)) with (fuel := fuel);
    [| | |exact Hf].
  - intros tk l0 s0 Hc fuel' _. now apply cap_while_stop.
  - intros tk tot e rest s0 r Hgt Hu IH fuel' Hlen. simpl in Hlen.
    destruct fuel' as [|fuel']; [lia|].
    simpl. rewrite cap_cond_cons.
    replace (tot >? MAX_STORAGE) with true
      by (symmetry; apply Z.gtb_lt; lia).
    unfold bind. rewrite cap_body_ok by exact Hu.
    rewrite IH by (simpl; lia). destruct r as [[o s2] t2]. reflexivity.
  - intros tk tot e rest s0 r Hgt Hu IH fuel' Hlen. simpl in Hlen.
    destruct fuel' as [|fuel']; [lia|].
    simpl. rewrite cap_cond_cons.
    replace (tot >? MAX_STORAGE) with true
      by (symmetry; apply Z.gtb_lt; lia).
    unfold bind. rewrite cap_body_rejected by exact Hu.
    rewrite IH by (simpl; lia). destruct r as [[o s2] t2]. reflexivity.
Qed.

Lemma filter_twice {A : Type} (p q : A -> bool) (l : list A) :
  filter p (filter q l) = filter (fun x => q x && p x) l.
Proof.
  induction l as [|x l IH]; simpl; [reflexivity|].
  destruct (q x); simpl; [destruct (p x)|]; now rewrite IH.
Qed.

Lemma filter_all {A : Type} (l : list A) : filter (fun _ => true) l = l.
Proof. induction l; simpl; congruence. Qed.


(** The loop only ever drops entries of the map. *)
Lemma cap_while_drops fuel taken l s :
  (List.length (files l) <= fuel)%nat ->
  exists p, fileMetadata (store_of (cap_while fuel taken l s)) =
            filter p (fileMetadata s).
Proof.
  apply (cap_while_ind
           (fun taken l s r =>
              exists p, fileMetadata (store_of r) = filter p (fileMetadata s))).
  - intros tk l0 s0 _. exists (fun _ => true). simpl. now rewrite filter_all.
  - intros tk tot e rest s0 r _ _ [p Hp]. simpl in *.
    rewrite Hp. unfold delete. rewrite filter_twice. eauto.
  - intros tk tot e rest s0 r _ _ [p Hp]. simpl in *. eauto.
Qed.


End CapacityPass.

(** ** Capacity pass: termination and the size bound *)

Section CapacityClaims.
Import JsMap JsMapFacts.

Lemma cap_body_shifts l s :
  cap_cond l = true ->
  S (List.length (files (result_of (cap_body l s)))) = List.length (files l).
Proof.
  destruct l as [tot [|e rest]]; [now rewrite cap_cond_nil|]. intros _.
  destruct (unlink_ok (filePath (snd e)) (disk s)) eqn:Hu.
  - now rewrite cap_body_ok.
  - now rewrite cap_body_rejected.
Qed.

Lemma rejected_in_trace p t :
  In (EvUnlink p false) t -> unlink_rejected t = true.
Proof.
  intros H. unfold unlink_rejected. apply existsb_exists.
  exists (EvUnlink p false). split; [exact H | reflexivity].
Qed.


End CapacityClaims.

(** C10.  A capacity pass terminates whatever the disk does: every turn of
    the loop takes one candidate off the working list, whether its unlink was
    fulfilled or rejected, and with one turn per record of the index as fuel
    (or any larger amount) the loop finishes after at most that many turns,
    in the store and with the trace of [manageStorageCapacity]. *)
Theorem capacity_pass_terminates (s : Store) (extra : nat) :
  (forall l s', cap_cond l = true ->
     S (List.length (files (result_of (cap_body l s')))) = List.length (files l)) /\
  exists turns,
    (turns <= List.length (fileMetadata s))%nat /\
    manageStorageCapacity_within (List.length (fileMetadata s) + extra) s =
    (Finished turns,
     store_of (manageStorageCapacity s),
     trace_of (manageStorageCapacity s)).
Proof.
  split; [intros l s'; apply cap_body_shifts|].
  pose proof (manageStorageCapacity_unfold s) as Hun. simpl in Hun.
  rewrite Hun. simpl.
  unfold manageStorageCapacity_within, bind, map_entries. simpl.
  pose proof (cap_init_fits (fileMetadata s)) as Hfit.
  rewrite (cap_while_fuel (List.length (fileMetadata s))
             (List.length (fileMetadata s) + extra) 0
             (cap_init (fileMetadata s)) s) by lia.
  destruct (cap_while_finishes (List.length (fileMetadata s)) 0
              (cap_init (fileMetadata s)) s Hfit) as [n [Hn Hr]].
  destruct (cap_while _ 0 _ s) as [[o s'] t]. simpl in *. subst o.
  exists n. split; [lia | reflexivity].
Qed.

Lemma capacity_pass_terminates_witness :
  exists turns,
    (turns <= 6)%nat /\
    manageStorageCapacity_within 8 six_blobs_gone =
    (Finished turns,
     store_of (manageStorageCapacity six_blobs_gone),
     trace_of (manageStorageCapacity six_blobs_gone)).
Proof. exact (proj2 (capacity_pass_terminates six_blobs_gone 2)). Defined.




(** ** The handlers, case by case *)

Section HandlerCases.
Import JsMap JsMapFacts.

Variables (fileId : string) (now : Z) (s : Store).

Lemma lazy_eviction_run metadata :
  (map_delete fileId ;; unlink_catch (filePath metadata) ;; ret has_expired) s =
  (has_expired, lazy_store fileId metadata s, lazy_trace fileId metadata s).
Proof.
  unfold bind, map_delete, unlink_catch, bind, fs_unlink, console_error, ret,
         lazy_store, lazy_trace.
  simpl. destruct (unlink_ok (filePath metadata) (disk s)); reflexivity.
Qed.

Lemma api_file_absent :
  get fileId (fileMetadata s) = None ->
  api_file fileId now s = (not_found, s, []).
Proof. intros H. unfold api_file, bind, map_get, ret. now rewrite H. Qed.

Lemma api_file_expired metadata :
  get fileId (fileMetadata s) = Some metadata ->
  is_expired now metadata = true ->
  api_file fileId now s =
  (has_expired, lazy_store fileId metadata s, lazy_trace fileId metadata s).
Proof.
  intros H He. unfold api_file, bind at 1, map_get. rewrite H, He.
  now rewrite lazy_eviction_run.
Qed.

Lemma api_file_fresh metadata :
  get fileId (fileMetadata s) = Some metadata ->
  is_expired now metadata = false ->
  api_file fileId now s = (file_json fileId metadata, s, []).
Proof. intros H He. unfold api_file, bind, map_get, ret. now rewrite H, He. Qed.

Lemma api_download_absent :
  get fileId (fileMetadata s) = None ->
  api_download fileId now s = (not_found, s, []).
Proof. intros H. unfold api_download, bind, map_get, ret. now rewrite H. Qed.

Lemma api_download_expired metadata :
  get fileId (fileMetadata s) = Some metadata ->
  is_expired now metadata = true ->
  api_download fileId now s =
  (has_expired, lazy_store fileId metadata s, lazy_trace fileId metadata s).
Proof.
  intros H He. unfold api_download, bind at 1, map_get. rewrite H, He.
  now rewrite lazy_eviction_run.
Qed.

Lemma api_download_sent metadata :
  get fileId (fileMetadata s) = Some metadata ->
  is_expired now metadata = false ->
  access_ok (filePath metadata) (disk s) = true ->
  api_download fileId now s =
  (mkResponse 200 (SendFile (Some (originalName metadata))
                            (mimetype metadata) (filePath metadata)),
   s, [EvAccess (filePath metadata) true]).
Proof.
  intros H He Ha. unfold api_download, bind, map_get, fs_access, ret.
  now rewrite H, He, Ha.
Qed.

Lemma api_download_purged metadata :
  get fileId (fileMetadata s) = Some metadata ->
  is_expired now metadata = false ->
  access_ok (filePath metadata) (disk s) = false ->
  api_download fileId now s =
  (not_on_disk, purged_store fileId s,
   [EvAccess (filePath metadata) false; EvDelete fileId]).
Proof.
  intros H He Ha. unfold api_download, bind, map_get, fs_access, map_delete, ret.
  now rewrite H, He, Ha.
Qed.

Lemma api_preview_absent :
  get fileId (fileMetadata s) = None ->
  api_preview fileId now s = (not_found, s, []).
Proof. intros H. unfold api_preview, bind, map_get, ret. now rewrite H. Qed.

Lemma api_preview_expired metadata :
  get fileId (fileMetadata s) = Some metadata ->
  is_expired now metadata = true ->
  api_preview fileId now s =
  (has_expired, lazy_store fileId metadata s, lazy_trace fileId metadata s).
Proof.
  intros H He. unfold api_preview, bind at 1, map_get. rewrite H, He.
  now rewrite lazy_eviction_run.
Qed.

Lemma api_preview_fresh metadata :
  get fileId (fileMetadata s) = Some metadata ->
  is_expired now metadata = false ->
  api_preview fileId now s =
  (if isPreviewable metadata
   then mkResponse 200 (SendFile None (mimetype metadata) (filePath metadata))
   else not_previewable,
   s, []).
Proof.
  intros H He. unfold api_preview, bind, map_get, ret. rewrite H, He.
  now destruct (isPreviewable metadata).
Qed.

Lemma file_page_absent :
  get fileId (fileMetadata s) = None ->
  file_page fileId s = (mkResponse 404 (Text "File not found"), s, []).
Proof. intros H. unfold file_page, bind, map_get, ret. now rewrite H. Qed.

Lemma file_page_present metadata :
  get fileId (fileMetadata s) = Some metadata ->
  file_page fileId s =
  (mkResponse 200
     (EmbedPage (originalName metadata) (originalName metadata) (size metadata)
                (if String.prefix "image/" (mimetype metadata)
                 then Some fileId else None)
                fileId),
   s, []).
Proof. intros H. unfold file_page, bind, map_get, ret. now rewrite H. Qed.

End HandlerCases.

(** ** Requests only ever add the uploaded entry and drop entries *)

Section Preservation.
Import JsMap JsMapFacts.

Lemma bind_ret_store {A B : Type} (m : M A) (g : A -> B) s :
  store_of ((x <- m ;; ret (g x)) s) = store_of (m s).
Proof. unfold bind, ret. destruct (m s) as [[a s1] t1]. reflexivity. Qed.

Lemma bind_store {A B : Type} (m : M A) (f : A -> M B) s :
  store_of (bind m f s) = store_of (f (result_of (m s)) (store_of (m s))).
Proof.
  unfold bind. destruct (m s) as [[a s1] t1]. simpl.
  destruct (f a s1) as [[b s2] t2]. reflexivity.
Qed.

Lemma capacity_pass_drops s :
  exists p, fileMetadata (store_of (manageStorageCapacity s)) =
            filter p (fileMetadata s).
Proof.
  pose proof (manageStorageCapacity_unfold s) as Hun. simpl in Hun.
  rewrite Hun. simpl. apply cap_while_drops, cap_init_fits.
Qed.

Lemma clean_one_drops id s :
  exists p, fileMetadata (store_of (clean_one id s)) = filter p (fileMetadata s).
Proof.
  unfold clean_one, bind, map_get, fs_unlink, map_delete, console_log,
         console_error.
  destruct (get id (fileMetadata s)) as [md|]; simpl.
  - destruct (unlink_ok (filePath md) (disk s)); simpl.
    + exists (fun e => negb (String.eqb id (fst e))). reflexivity.
    + exists (fun _ => true). now rewrite filter_all.
  - exists (fun _ => true). now rewrite filter_all.
Qed.

Lemma for_each_clean_drops ids s :
  exists p, fileMetadata (store_of (for_each clean_one ids s)) =
            filter p (fileMetadata s).
Proof.
  revert s. induction ids as [|id ids IH]; intros s; simpl.
  - exists (fun _ => true). now rewrite filter_all.
  - unfold bind. destruct (clean_one_drops id s) as [p Hp].
    destruct (clean_one id s) as [[u s1] t1]. simpl in Hp.
    destruct (IH s1) as [q Hq].
    destruct (for_each clean_one ids s1) as [[u2 s2] t2]. simpl in *.
    rewrite Hq, Hp, filter_twice. eauto.
Qed.

Lemma expiry_sweep_drops now s :
  exists p, fileMetadata (store_of (cleanExpiredFiles now s)) =
            filter p (fileMetadata s).
Proof.
  unfold cleanExpiredFiles, bind, map_entries.
  destruct (for_each_clean_drops (expiredFiles now (fileMetadata s)) s)
    as [p Hp].
  destruct (for_each clean_one _ s) as [[u s1] t1]. simpl in *. eauto.
Qed.

Lemma keep_all (m : JsMap.t) : exists p, m = filter p m.
Proof. exists (fun _ => true). now rewrite filter_all. Qed.

Lemma api_file_drops id now s :
  exists p, fileMetadata (store_of (api_file id now s)) = filter p (fileMetadata s).
Proof.
  destruct (get id (fileMetadata s)) as [md|] eqn:G.
  - destruct (is_expired now md) eqn:E.
    + rewrite (api_file_expired id now s md G E). simpl.
      exists (fun e => negb (String.eqb id (fst e))). reflexivity.
    + rewrite (api_file_fresh id now s md G E). apply keep_all.
  - rewrite (api_file_absent id now s G). apply keep_all.
Qed.

Lemma api_download_drops id now s :
  exists p, fileMetadata (store_of (api_download id now s)) =
            filter p (fileMetadata s).
Proof.
  destruct (get id (fileMetadata s)) as [md|] eqn:G.
  - destruct (is_expired now md) eqn:E.
    + rewrite (api_download_expired id now s md G E). simpl.
      exists (fun e => negb (String.eqb id (fst e))). reflexivity.
    + destruct (access_ok (filePath md) (disk s)) eqn:A.
      * rewrite (api_download_sent id now s md G E A). apply keep_all.
      * rewrite (api_download_purged id now s md G E A). simpl.
        exists (fun e => negb (String.eqb id (fst e))). reflexivity.
  - rewrite (api_download_absent id now s G). apply keep_all.
Qed.

Lemma api_preview_drops id now s :
  exists p, fileMetadata (store_of (api_preview id now s)) =
            filter p (fileMetadata s).
Proof.
  destruct (get id (fileMetadata s)) as [md|] eqn:G.
  - destruct (is_expired now md) eqn:E.
    + rewrite (api_preview_expired id now s md G E). simpl.
      exists (fun e => negb (String.eqb id (fst e))). reflexivity.
    + rewrite (api_preview_fresh id now s md G E). apply keep_all.
  - rewrite (api_preview_absent id now s G). apply keep_all.
Qed.

Lemma file_page_unchanged id s : store_of (file_page id s) = s.
Proof.
  destruct (get id (fileMetadata s)) as [md|] eqn:G.
  - now rewrite (file_page_present id s md G).
  - now rewrite (file_page_absent id s G).
Qed.

(** A request that registers nothing only drops entries. *)
Lemma handle_drops r s :
  uploads r = None ->
  exists p, fileMetadata (store_of (handle r s)) = filter p (fileMetadata s).
Proof.
  destruct r as [[f|] st rs|id now|id now|id now|id|now|];
    intros H; try discriminate H; unfold handle; rewrite ?bind_ret_store.
  - unfold api_upload, ret. apply keep_all.
  - apply api_file_drops.
  - apply api_download_drops.
  - apply api_preview_drops.
  - rewrite file_page_unchanged. apply keep_all.
  - apply expiry_sweep_drops.
  - apply capacity_pass_drops.
Qed.

(** An upload sets its entry, then the capacity pass drops entries. *)
Lemma handle_upload f stored responded s :
  exists p,
    fileMetadata (store_of (handle (Upload (Some f) stored responded) s)) =
    filter p (set (basename_no_ext (f_filename f)) (stored_metadata f stored)
                  (fileMetadata s)).
Proof.
  unfold handle. rewrite bind_ret_store. unfold api_upload.
  rewrite bind_store, bind_ret_store.
  apply (capacity_pass_drops
           {| fileMetadata := set (basename_no_ext (f_filename f))
                                  (stored_metadata f stored) (fileMetadata s);
              disk := disk s |}).
Qed.

Lemma handle_wf r s : wf (fileMetadata s) -> wf (fileMetadata (store_of (handle r s))).
Proof.
  intros Hwf. destruct (uploads r) as [id|] eqn:U.
  - destruct r as [[f|] st rs| | | | | |]; try discriminate.
    destruct (handle_upload f st rs s) as [p ->].
    apply wf_filter, wf_set, Hwf.
  - destruct (handle_drops r s U) as [p ->]. now apply wf_filter.
Qed.

(** An identifier out of the map stays out until it is uploaded. *)
Lemma handle_absent r s id :
  uploads r <> Some id ->
  get id (fileMetadata s) = None ->
  get id (fileMetadata (store_of (handle r s))) = None.
Proof.
  intros Hu Hg. destruct (uploads r) as [id'|] eqn:U.
  - destruct r as [[f|] st rs| | | | | |]; try discriminate.
    destruct (handle_upload f st rs s) as [p ->].
    apply get_filter_None. simpl in U. injection U as U.
    rewrite get_set_other; [exact Hg | congruence].
  - destruct (handle_drops r s U) as [p ->]. now apply get_filter_None.
Qed.

(** A stored record is never altered: it stays as it is or it goes. *)
Lemma handle_keeps r s id :
  uploads r <> Some id ->
  wf (fileMetadata s) ->
  get id (fileMetadata (store_of (handle r s))) = None \/
  get id (fileMetadata (store_of (handle r s))) = get id (fileMetadata s).
Proof.
  intros Hu Hwf. destruct (uploads r) as [id'|] eqn:U.
  - destruct r as [[f|] st rs| | | | | |]; try discriminate.
    destruct (handle_upload f st rs s) as [p ->].
    simpl in U. injection U as U.
    destruct (get_filter p (set (basename_no_ext (f_filename f))
                                (stored_metadata f st) (fileMetadata s)) id)
      as [H|H]; [now apply wf_set | now left |].
    right. rewrite H. apply get_set_other. congruence.
  - destruct (handle_drops r s U) as [p ->]. now apply get_filter.
Qed.

Lemma serve_wf rs s : wf (fileMetadata s) -> wf (fileMetadata (serve rs s)).
Proof.
  revert s. induction rs as [|r rs IH]; intros s H; simpl; [exact H|].
  apply IH, handle_wf, H.
Qed.

Lemma serve_absent rs s id :
  (forall r, In r rs -> uploads r <> Some id) ->
  get id (fileMetadata s) = None ->
  get id (fileMetadata (serve rs s)) = None.
Proof.
  revert s. induction rs as [|r rs IH]; intros s Hu Hg; simpl; [exact Hg|].
  apply IH; [intros r' Hr'; apply Hu; now right|].
  apply handle_absent; [apply Hu; now left | exact Hg].
Qed.

Lemma serve_keeps rs s id :
  (forall r, In r rs -> uploads r <> Some id) ->
  wf (fileMetadata s) ->
  get id (fileMetadata (serve rs s)) = None \/
  get id (fileMetadata (serve rs s)) = get id (fileMetadata s).
Proof.
  revert s. induction rs as [|r rs IH]; intros s Hu Hwf; cbn [serve]; [now right|].
  assert (Hu' : forall r', In r' rs -> uploads r' <> Some id)
    by (intros r' Hr'; apply Hu; now right).
  destruct (IH (store_of (handle r s)) Hu' (handle_wf r s Hwf)) as [H|H];
    [now left|].
  destruct (handle_keeps r s id (Hu r (or_introl eq_refl)) Hwf) as [K|K].
  - left. rewrite H. exact K.
  - right. rewrite H. exact K.
Qed.

End Preservation.

(** ** Lazy expiry *)

Section LazyExpiry.
Import JsMap JsMapFacts.

Lemma mem_remove_path p l : mem p (remove_path p l) = false.
Proof.
  unfold mem, remove_path. induction l as [|q l IH]; simpl; [reflexivity|].
  destruct (String.eqb p q) eqn:E; simpl; [exact IH|].
  now rewrite E.
Qed.

(** After an unlink attempt the blob is gone, unless the system refused. *)
Lemma unlink_disk_removes p d :
  mem p (refused d) = false -> mem p (blobs (unlink_disk p d)) = false.
Proof.
  intros Hr. unfold unlink_disk, unlink_ok. rewrite Hr.
  destruct (mem p (blobs d)) eqn:Hb; simpl.
  - apply mem_remove_path.
  - exact Hb.
Qed.

Lemma is_expired_gt now metadata :
  is_expired now metadata = true <-> now - uploadTime metadata > TTL_MS.
Proof. unfold is_expired. rewrite Z.gtb_lt. lia. Qed.

Lemma is_expired_le now metadata :
  is_expired now metadata = false <-> now - uploadTime metadata <= TTL_MS.
Proof.
  unfold is_expired. destruct (Z.gtb_spec (now - uploadTime metadata) TTL_MS);
    split; intros; try lia; congruence.
Qed.

(** The three handlers evict an expired record in the same way. *)
Lemma lazy_eviction first fileId now metadata s :
  In first [GetFile fileId now; Download fileId now; Preview fileId now] ->
  get fileId (fileMetadata s) = Some metadata ->
  is_expired now metadata = true ->
  handle first s =
  (Some has_expired, lazy_store fileId metadata s,
   lazy_trace fileId metadata s ++ []).
Proof.
  intros Hin G E. unfold handle.
  destruct Hin as [<-|[<-|[<-|[]]]]; unfold bind at 1.
  - now rewrite (api_file_expired fileId now s metadata G E).
  - now rewrite (api_download_expired fileId now s metadata G E).
  - now rewrite (api_preview_expired fileId now s metadata G E).
Qed.

End LazyExpiry.

(** C2.  For a record past its time to live, the first metadata, download or
    preview request on its identifier answers "File has expired", removes
    the index entry and unlinks the blob (which is then gone from the disk
    unless the system refuses the unlink); after that, and after any further
    requests that do not upload under the same identifier, a metadata request
    answers "File not found", which is a different answer. *)
Theorem expired_once_then_not_found
        (s : Store) (fileId : string) (metadata : Metadata) (now : Z)
        (first : Request) :
  JsMap.get fileId (fileMetadata s) = Some metadata ->
  now - uploadTime metadata > TTL_MS ->
  In first [GetFile fileId now; Download fileId now; Preview fileId now] ->
  let r := handle first s in
  result_of r = Some has_expired /\
  JsMap.get fileId (fileMetadata (store_of r)) = None /\
  disk (store_of r) = unlink_disk (filePath metadata) (disk s) /\
  (mem (filePath metadata) (refused (disk s)) = false ->
   mem (filePath metadata) (blobs (disk (store_of r))) = false) /\
  has_expired <> not_found /\
  forall (rs : list Request) (later : Z),
    (forall q, In q rs -> uploads q <> Some fileId) ->
    result_of (api_file fileId later (serve rs (store_of r))) = not_found.
Proof.
  intros G E Hin. apply is_expired_gt in E.
  cbv zeta. rewrite (lazy_eviction first fileId now metadata s Hin G E).
  cbn [result_of store_of fst snd lazy_store fileMetadata disk].
  split; [reflexivity|].
  split; [apply JsMapFacts.get_delete_same|].
  split; [reflexivity|].
  split; [apply unlink_disk_removes|].
  split; [discriminate|].
  intros rs later Hrs.
  rewrite api_file_absent; [reflexivity|].
  apply serve_absent; [exact Hrs|]. apply JsMapFacts.get_delete_same.
Qed.

Lemma expired_once_then_not_found_witness :
  let s := six_on_disk in
  let now := 1000 + TTL_MS + 1 in
  let r := handle (GetFile "a1" now) s in
  result_of r = Some has_expired /\
  JsMap.get "a1" (fileMetadata (store_of r)) = None /\
  mem "uploads/a1.zip" (blobs (disk (store_of r))) = false /\
  result_of (api_file "a1" (now + 1)
               (serve [Download "b2" now; SweepCapacity] (store_of r))) = not_found.
Proof.
  assert (G : JsMap.get "a1" (fileMetadata six_on_disk) =
              Some (snd (archive "a1" 1000))) by reflexivity.
  assert (E : 1000 + TTL_MS + 1 - uploadTime (snd (archive "a1" 1000)) > TTL_MS)
    by (vm_compute; reflexivity).
  assert (I : In (GetFile "a1" (1000 + TTL_MS + 1))
                 [GetFile "a1" (1000 + TTL_MS + 1);
                  Download "a1" (1000 + TTL_MS + 1);
                  Preview "a1" (1000 + TTL_MS + 1)]) by (simpl; now left).
  destruct (expired_once_then_not_found six_on_disk "a1" _ _ _ G E I)
    as [H1 [H2 [_ [H4 [_ H6]]]]].
  intros s now r. split; [|split; [|split]].
  - exact H1.
  - exact H2.
  - apply H4. reflexivity.
  - apply H6. intros q [<-|[<-|[]]]; discriminate.
Defined.

(** ** Register and look up *)

Section RegisterLookup.
Import JsMap JsMapFacts.

(** Within the cap the pass does nothing. *)
Lemma capacity_pass_idle s :
  total (fileMetadata s) <= MAX_STORAGE ->
  manageStorageCapacity s = (tt, s, []).
Proof.
  intros H. pose proof (manageStorageCapacity_unfold s) as Hun.
  cbv zeta in Hun. rewrite Hun. rewrite cap_while_stop; [reflexivity|].
  unfold cap_cond. rewrite cap_init_total.
  destruct (Z.gtb_spec (total (fileMetadata s)) MAX_STORAGE); [lia|reflexivity].
Qed.

(** The store in which the capacity pass of an upload runs. *)
Lemma api_upload_store f stored responded s :
  store_of (api_upload (Some f) stored responded s) =
  store_of (manageStorageCapacity
              {| fileMetadata := set (basename_no_ext (f_filename f))
                                     (stored_metadata f stored) (fileMetadata s);
                 disk := disk s |}).
Proof. unfold api_upload. now rewrite bind_store, bind_ret_store. Qed.

Lemma api_upload_result f stored responded s :
  result_of (api_upload (Some f) stored responded s) =
  mkResponse 200 (UploadJson (basename_no_ext (f_filename f))
                             "File uploaded successfully"
                             (responded + TTL_MS)).
Proof.
  unfold api_upload, bind, map_set.
  destruct (manageStorageCapacity _) as [[u s1] t1]. reflexivity.
Qed.

(** After an upload the identifier holds the uploaded record or nothing. *)
Lemma api_upload_get f stored responded s :
  wf (fileMetadata s) ->
  let after := fileMetadata (store_of (api_upload (Some f) stored responded s)) in
  wf after /\
  (get (basename_no_ext (f_filename f)) after = None \/
   get (basename_no_ext (f_filename f)) after = Some (stored_metadata f stored)).
Proof.
  intros Hwf. cbv zeta. rewrite api_upload_store.
  destruct (capacity_pass_drops
              {| fileMetadata := set (basename_no_ext (f_filename f))
                                     (stored_metadata f stored) (fileMetadata s);
                 disk := disk s |}) as [p Hp].
  rewrite Hp. cbn [fileMetadata]. split.
  - apply wf_filter, wf_set, Hwf.
  - destruct (get_filter p (set (basename_no_ext (f_filename f))
                                (stored_metadata f stored) (fileMetadata s))
                         (basename_no_ext (f_filename f))) as [H|H].
    + apply wf_set, Hwf.
    + now left.
    + right. rewrite H. apply get_set_same.
Qed.

End RegisterLookup.

(** ** A settled record stays until it expires or is evicted *)

Section Settled.
Import JsMap JsMapFacts.

Variables (fileId : string) (metadata : Metadata).

Lemma mem_remove_other p q l : p <> q -> mem p (remove_path q l) = mem p l.
Proof.
  intros Hne. unfold mem, remove_path.
  induction l as [|x l IH]; simpl; [reflexivity|].
  destruct (String.eqb_spec q x) as [->|Hqx]; simpl.
  - rewrite IH. destruct (String.eqb_spec p x); [congruence | reflexivity].
  - now rewrite IH.
Qed.

Lemma access_unlink_other p q d :
  p <> q -> access_ok p (unlink_disk q d) = access_ok p d.
Proof.
  intros Hne. unfold access_ok, unlink_disk.
  destruct (unlink_ok q d); simpl; [now apply mem_remove_other | reflexivity].
Qed.

(** Dropping other entries and unlinking another blob keep the record
    settled. *)
Lemma settled_drop s k q :
  settled fileId metadata s ->
  k <> fileId -> q <> filePath metadata ->
  settled fileId metadata
          {| fileMetadata := delete k (fileMetadata s);
             disk := unlink_disk q (disk s) |}.
Proof.
  intros [Hwf [G [A D]]] Hk Hq. unfold settled. cbn [fileMetadata disk].
  split; [now apply wf_delete|].
  split; [now rewrite get_delete_other|].
  split; [now rewrite access_unlink_other by congruence|].
  intros e He. apply In_delete in He. destruct He as [He _]. now apply D.
Qed.

Lemma settled_purge s k :
  settled fileId metadata s -> k <> fileId ->
  settled fileId metadata (purged_store k s).
Proof.
  intros [Hwf [G [A D]]] Hk. unfold settled, purged_store. cbn [fileMetadata disk].
  split; [now apply wf_delete|].
  split; [now rewrite get_delete_other|].
  split; [exact A|].
  intros e He. apply In_delete in He. destruct He as [He _]. now apply D.
Qed.

Lemma settled_other_path s k md :
  settled fileId metadata s ->
  get k (fileMetadata s) = Some md -> k <> fileId ->
  filePath md <> filePath metadata.
Proof.
  intros [_ [_ [_ D]]] G Hk. apply get_In in G. exact (D (k, md) G Hk).
Qed.

Lemma settled_same s md :
  settled fileId metadata s -> get fileId (fileMetadata s) = Some md ->
  md = metadata.
Proof. intros [_ [G _]] G'. congruence. Qed.

(** The three reading handlers. *)
Lemma api_file_settled s id now :
  settled fileId metadata s ->
  now - uploadTime metadata <= TTL_MS ->
  settled fileId metadata (store_of (api_file id now s)).
Proof.
  intros Hs Hnow.
  destruct (get id (fileMetadata s)) as [md|] eqn:G.
  - destruct (is_expired now md) eqn:E.
    + rewrite (api_file_expired id now s md G E). cbn [store_of fst snd].
      assert (Hid : id <> fileId).
      { intros ->. rewrite (settled_same s md Hs G) in E.
        apply is_expired_gt in E. lia. }
      apply settled_drop; [exact Hs | exact Hid |].
      now apply (settled_other_path s id md).
    + now rewrite (api_file_fresh id now s md G E).
  - now rewrite (api_file_absent id now s G).
Qed.

Lemma api_download_settled s id now :
  settled fileId metadata s ->
  now - uploadTime metadata <= TTL_MS ->
  settled fileId metadata (store_of (api_download id now s)).
Proof.
  intros Hs Hnow.
  destruct (get id (fileMetadata s)) as [md|] eqn:G.
  - destruct (is_expired now md) eqn:E.
    + rewrite (api_download_expired id now s md G E). cbn [store_of fst snd].
      assert (Hid : id <> fileId).
      { intros ->. rewrite (settled_same s md Hs G) in E.
        apply is_expired_gt in E. lia. }
      apply settled_drop; [exact Hs | exact Hid |].
      now apply (settled_other_path s id md).
    + destruct (access_ok (filePath md) (disk s)) eqn:A.
      * now rewrite (api_download_sent id now s md G E A).
      * rewrite (api_download_purged id now s md G E A). cbn [store_of fst snd].
        apply settled_purge; [exact Hs|].
        intros ->. rewrite (settled_same s md Hs G) in A.
        destruct Hs as [_ [_ [A' _]]]. congruence.
  - now rewrite (api_download_absent id now s G).
Qed.

Lemma api_preview_settled s id now :
  settled fileId metadata s ->
  now - uploadTime metadata <= TTL_MS ->
  settled fileId metadata (store_of (api_preview id now s)).
Proof.
  intros Hs Hnow.
  destruct (get id (fileMetadata s)) as [md|] eqn:G.
  - destruct (is_expired now md) eqn:E.
    + rewrite (api_preview_expired id now s md G E). cbn [store_of fst snd].
      assert (Hid : id <> fileId).
      { intros ->. rewrite (settled_same s md Hs G) in E.
        apply is_expired_gt in E. lia. }
      apply settled_drop; [exact Hs | exact Hid |].
      now apply (settled_other_path s id md).
    + now rewrite (api_preview_fresh id now s md G E).
  - now rewrite (api_preview_absent id now s G).
Qed.

(** The expiry sweep. *)
Lemma clean_one_settled s id :
  settled fileId metadata s -> id <> fileId ->
  settled fileId metadata (store_of (clean_one id s)).
Proof.
  intros Hs Hid. unfold clean_one, bind, map_get, fs_unlink, map_delete,
                        console_log, console_error.
  destruct (get id (fileMetadata s)) as [md|] eqn:G; cbn; [|exact Hs].
  destruct (unlink_ok (filePath md) (disk s)) eqn:U; cbn.
  - apply settled_drop; [exact Hs | exact Hid |].
    now apply (settled_other_path s id md).
  - rewrite unlink_disk_rejected by exact U. now destruct s.
Qed.

Lemma for_each_clean_settled ids s :
  settled fileId metadata s -> ~ In fileId ids ->
  settled fileId metadata (store_of (for_each clean_one ids s)).
Proof.
  revert s. induction ids as [|id ids IH]; intros s Hs Hni; [exact Hs|].
  cbn [for_each]. rewrite bind_store. apply IH.
  - apply clean_one_settled; [exact Hs|]. intros ->. apply Hni. now left.
  - intros H. apply Hni. now right.
Qed.

Lemma expiry_sweep_settled s now :
  settled fileId metadata s ->
  now - uploadTime metadata <= TTL_MS ->
  settled fileId metadata (store_of (cleanExpiredFiles now s)).
Proof.
  intros Hs Hnow. unfold cleanExpiredFiles. rewrite bind_store.
  apply for_each_clean_settled; [exact Hs|].
  unfold map_entries, expiredFiles. cbn [result_of fst].
  rewrite in_map_iff. intros [[k v] [Hk Hin]]. cbn in Hk. subst k.
  apply filter_In in Hin. destruct Hin as [Hin E]. cbn in E.
  destruct Hs as [Hwf [G _]].
  rewrite (In_get fileId v (fileMetadata s) Hwf Hin) in G. injection G as ->.
  apply is_expired_gt in E. lia.
Qed.

(** The capacity pass, as long as it does not print that it deleted the
    record. *)
Lemma cap_while_settled fuel taken l s :
  (List.length (files l) <= fuel)%nat ->
  settled fileId metadata s ->
  NoDup (map fst (files l)) ->
  (forall e, In e (files l) -> In e (fileMetadata s)) ->
  ~ evicted_for_capacity fileId (trace_of (cap_while fuel taken l s)) ->
  settled fileId metadata (store_of (cap_while fuel taken l s)).
Proof.
  intros Hfuel.
  pattern taken, l, s, (cap_while fuel taken l s).
  apply cap_while_ind; [| | |exact Hfuel]; clear fuel taken l s Hfuel.
  - intros tk l s _ Hs _ _ _. exact Hs.
  - intros tk tot e rest s r _ Hu IH Hs Hnd Hin Hlog.
    cbn [files store_of trace_of fst snd] in *.
    inversion Hnd as [|? ? Hni Hnd']; subst.
    assert (He : In e (fileMetadata s)) by (apply Hin; now left).
    assert (Hid : fst e <> fileId).
    { intros E. apply Hlog. unfold evicted_for_capacity, evicted_trace.
      rewrite E. cbn. auto. }
    apply IH.
    + apply settled_drop; [exact Hs | exact Hid |].
      destruct Hs as [_ [_ [_ D]]]. now apply D.
    + exact Hnd'.
    + intros e' He'. unfold evicted_store. cbn [fileMetadata].
      apply In_delete. split; [apply Hin; now right|].
      intros E. apply Hni. rewrite <- E. now apply in_map.
    + intros H. apply Hlog. unfold evicted_for_capacity in *.
      apply in_or_app. now right.
  - intros tk tot e rest s r _ Hu IH Hs Hnd Hin Hlog.
    cbn [files store_of trace_of fst snd] in *.
    inversion Hnd as [|? ? Hni Hnd']; subst.
    apply IH; auto.
    + intros e' He'. apply Hin. now right.
    + intros H. apply Hlog. unfold evicted_for_capacity in *.
      apply in_or_app. now right.
Qed.

Lemma capacity_pass_settled s :
  settled fileId metadata s ->
  ~ evicted_for_capacity fileId (trace_of (manageStorageCapacity s)) ->
  settled fileId metadata (store_of (manageStorageCapacity s)).
Proof.
  pose proof (manageStorageCapacity_unfold s) as Hun. cbv zeta in Hun.
  rewrite Hun. cbn [store_of trace_of fst snd]. intros Hs Hlog.
  apply cap_while_settled.
  - apply cap_init_fits.
  - exact Hs.
  - cbn [cap_init files]. apply sort_by_time_keys. now destruct Hs.
  - cbn [cap_init files]. intros e. apply sort_by_time_In.
  - exact Hlog.
Qed.


(** An upload of another file. *)
Lemma In_set k v (m : JsMap.t) e : In e (set k v m) -> e = (k, v) \/ In e m.
Proof.
  induction m as [|[k0 v0] m IH]; simpl.
  - intros [<-|[]]. now left.
  - destruct (String.eqb k k0); simpl.
    + intros [<-|H]; [now left | now right; right].
    + intros [<-|H]; [now right; left|].
      destruct (IH H) as [->|H']; [now left | now right; right].
Qed.

Lemma settled_set s k v :
  settled fileId metadata s ->
  k <> fileId -> filePath v <> filePath metadata ->
  settled fileId metadata
          {| fileMetadata := set k v (fileMetadata s); disk := disk s |}.
Proof.
  intros [Hwf [G [A D]]] Hk Hv. unfold settled. cbn [fileMetadata disk].
  split; [now apply wf_set|].
  split; [now rewrite get_set_other|].
  split; [exact A|].
  intros e He Hne. apply In_set in He. destruct He as [->|He]; [exact Hv|].
  now apply D.
Qed.

Lemma bind_trace {A B : Type} (m : M A) (f : A -> M B) s :
  trace_of (bind m f s) =
  trace_of (m s) ++ trace_of (f (result_of (m s)) (store_of (m s))).
Proof.
  unfold bind. destruct (m s) as [[a s1] t1]. cbn.
  destruct (f a s1) as [[b s2] t2]. reflexivity.
Qed.

Lemma bind_ret_trace {A B : Type} (m : M A) (g : A -> B) s :
  trace_of ((x <- m ;; ret (g x)) s) = trace_of (m s).
Proof. rewrite bind_trace. unfold ret. cbn. apply app_nil_r. Qed.

Lemma api_upload_trace f stored responded s :
  trace_of (api_upload (Some f) stored responded s) =
  EvSet (basename_no_ext (f_filename f)) ::
  trace_of (manageStorageCapacity
              {| fileMetadata := set (basename_no_ext (f_filename f))
                                     (stored_metadata f stored) (fileMetadata s);
                 disk := disk s |}).
Proof.
  unfold api_upload. rewrite bind_trace, bind_ret_trace. reflexivity.
Qed.

Lemma evicted_cons ev t :
  ~ evicted_for_capacity fileId (ev :: t) -> ~ evicted_for_capacity fileId t.
Proof. unfold evicted_for_capacity. intros H I. apply H. now right. Qed.

Lemma evicted_app t1 t2 :
  ~ evicted_for_capacity fileId (t1 ++ t2) ->
  ~ evicted_for_capacity fileId t1 /\ ~ evicted_for_capacity fileId t2.
Proof.
  unfold evicted_for_capacity. intros H.
  split; intros I; apply H; apply in_or_app; [now left | now right].
Qed.

Lemma api_upload_settled f stored responded s :
  settled fileId metadata s ->
  basename_no_ext (f_filename f) <> fileId ->
  f_path f <> filePath metadata ->
  ~ evicted_for_capacity fileId (trace_of (api_upload (Some f) stored responded s)) ->
  settled fileId metadata (store_of (api_upload (Some f) stored responded s)).
Proof.
  intros Hs Hid Hpath Hlog. rewrite api_upload_store.
  rewrite api_upload_trace in Hlog. apply evicted_cons in Hlog.
  apply capacity_pass_settled; [|exact Hlog].
  now apply settled_set.
Qed.

(** Every request keeps the record settled, unless it reads a clock past the
    time to live or its capacity pass prints the eviction of the record. *)
Lemma handle_settled r s :
  settled fileId metadata s ->
  other_upload fileId (filePath metadata) r ->
  within_ttl (uploadTime metadata) r ->
  ~ evicted_for_capacity fileId (trace_of (handle r s)) ->
  settled fileId metadata (store_of (handle r s)).
Proof.
  intros Hs Hup Httl Hlog.
  destruct r as [[f|] st rs|id now|id now|id now|id|now|];
    unfold handle in *; rewrite bind_ret_store; rewrite bind_ret_trace in Hlog;
    cbn [other_upload within_ttl] in *.
  - destruct Hup as [Hid Hpath]. now apply api_upload_settled.
  - exact Hs.
  - now apply api_file_settled.
  - now apply api_download_settled.
  - now apply api_preview_settled.
  - now rewrite file_page_unchanged.
  - now apply expiry_sweep_settled.
  - now apply capacity_pass_settled.
Qed.

Lemma serve_settled rs s :
  settled fileId metadata s ->
  (forall q, In q rs -> other_upload fileId (filePath metadata) q) ->
  (forall q, In q rs -> within_ttl (uploadTime metadata) q) ->
  ~ evicted_for_capacity fileId (serve_trace rs s) ->
  settled fileId metadata (serve rs s).
Proof.
  revert s. induction rs as [|r rs IH]; intros s Hs Hup Httl Hlog;
    cbn [serve serve_trace] in *; [exact Hs|].
  apply evicted_app in Hlog. destruct Hlog as [H1 H2].
  apply IH.
  - apply handle_settled; [exact Hs | apply Hup | apply Httl | exact H1];
      now left.
  - intros q Hq. apply Hup. now right.
  - intros q Hq. apply Httl. now right.
  - exact H2.
Qed.

End Settled.

(** The upload handler settles its record when multer has written the blob
    under a path no other record uses, unless its own capacity pass evicts
    it. *)
Lemma upload_settles s f stored responded :
  JsMap.wf (fileMetadata s) ->
  access_ok (f_path f) (disk s) = true ->
  (forall e, In e (fileMetadata s) -> filePath (snd e) <> f_path f) ->
  ~ evicted_for_capacity (basename_no_ext (f_filename f))
      (trace_of (api_upload (Some f) stored responded s)) ->
  settled (basename_no_ext (f_filename f)) (stored_metadata f stored)
          (store_of (api_upload (Some f) stored responded s)).
Proof.
  intros Hwf Hblob Hfresh Hlog. rewrite api_upload_store.
  rewrite api_upload_trace in Hlog.
  apply (evicted_cons (basename_no_ext (f_filename f))) in Hlog.
  apply capacity_pass_settled; [|exact Hlog].
  unfold settled. cbn [fileMetadata disk stored_metadata filePath].
  split; [now apply JsMapFacts.wf_set|].
  split; [apply JsMapFacts.get_set_same|].
  split; [exact Hblob|].
  intros e He Hne. apply In_set in He. destruct He as [->|He].
  - exfalso. now apply Hne.
  - now apply Hfresh.
Qed.

(** Whatever was served in between, a record that is still in the index is
    returned as it was uploaded: records are dropped, never altered. *)
Lemma lookup_while_present
      (s : Store) (f : UploadedFile) (stored responded : Z)
      (rs : list Request) (now : Z) :
  let fileId := basename_no_ext (f_filename f) in
  let later := serve rs (store_of (api_upload (Some f) stored responded s)) in
  JsMap.wf (fileMetadata s) ->
  (forall q, In q rs -> uploads q <> Some fileId) ->
  now - stored <= TTL_MS ->
  JsMap.get fileId (fileMetadata later) <> None ->
  api_file fileId now later = (file_json fileId (stored_metadata f stored), later, []).
Proof.
  intros fileId later Hwf Hrs Hnow Hthere.
  destruct (api_upload_get f stored responded s Hwf) as [Hwf1 Hget].
  fold fileId in Hwf1, Hget.
  assert (G : JsMap.get fileId (fileMetadata later) =
              Some (stored_metadata f stored)).
  { destruct (serve_keeps rs _ fileId Hrs Hwf1) as [K|K];
      fold later in K; [contradiction|].
    destruct Hget as [N|S']; [|now rewrite K].
    rewrite N in K. contradiction. }
  rewrite (api_file_fresh fileId now later _ G); [reflexivity|].
  apply is_expired_le. exact Hnow.
Qed.

(** An upload that leaves the index within the cap evicts nothing. *)
Lemma upload_within_cap (s : Store) (f : UploadedFile) (stored responded : Z) :
  JsMap.total (JsMap.set (basename_no_ext (f_filename f))
                         (stored_metadata f stored) (fileMetadata s))
    <= MAX_STORAGE ->
  trace_of (api_upload (Some f) stored responded s) =
  [EvSet (basename_no_ext (f_filename f))].
Proof.
  intros Hcap. rewrite api_upload_trace.
  now rewrite capacity_pass_idle by exact Hcap.
Qed.

(** C6.  Multer has written the blob under a path no other record uses and
    the upload handler has run.  The upload answers with the identifier
    under which it stored the record, and a metadata request on that
    identifier returns exactly the uploaded record (identifier, original
    name, size, mime type, upload time, and upload time plus 24 hours as
    expiry) and changes nothing.  This holds right after the upload and
    after any further requests (metadata, download, preview, share page,
    sweeps, uploads of other files), as long as no request has read a clock
    past the record's time to live and no capacity pass has printed the
    eviction of the record. *)
Theorem register_then_lookup
        (s : Store) (f : UploadedFile) (stored responded : Z)
        (rs : list Request) (now : Z) :
  let fileId := basename_no_ext (f_filename f) in
  let uploaded := api_upload (Some f) stored responded s in
  let later := serve rs (store_of uploaded) in
  JsMap.wf (fileMetadata s) ->
  access_ok (f_path f) (disk s) = true ->
  (forall e, In e (fileMetadata s) -> filePath (snd e) <> f_path f) ->
  (forall q, In q rs -> other_upload fileId (f_path f) q) ->
  (forall q, In q rs -> within_ttl stored q) ->
  now - stored <= TTL_MS ->
  ~ evicted_for_capacity fileId
      (trace_of uploaded ++ serve_trace rs (store_of uploaded)) ->
  (exists expiry,
      result_of uploaded =
      mkResponse 200 (UploadJson fileId "File uploaded successfully" expiry)) /\
  api_file fileId now later =
  (mkResponse 200
     (FileJson fileId (f_originalname f) (f_size f) (f_mimetype f)
               stored (stored + TTL_MS)),
   later, []).
Proof.
  intros fileId uploaded later Hwf Hblob Hfresh Hup Httl Hnow Hlog.
  apply evicted_app in Hlog. destruct Hlog as [Hlog1 Hlog2].
  split.
  - unfold uploaded. rewrite api_upload_result. eauto.
  - assert (Hs : settled fileId (stored_metadata f stored) later).
    { apply serve_settled; [|exact Hup|exact Httl|exact Hlog2].
      now apply upload_settles. }
    destruct Hs as [_ [G _]].
    rewrite (api_file_fresh fileId now later _ G); [reflexivity|].
    apply is_expired_le. exact Hnow.
Qed.

Lemma register_then_lookup_witness :
  let uploaded := api_upload (Some notes) 7000 7002 six_and_notes_blob in
  let rs := [Download "0f3a" 7100; GetFile "b2" 7200; SweepExpired 7300;
             Preview "0f3a" 7400; SweepCapacity; FilePage "0f3a"] in
  let later := serve rs (store_of uploaded) in
  api_file "0f3a" (7000 + TTL_MS) later =
  (mkResponse 200 (FileJson "0f3a" "notes.txt" 10 "text/plain" 7000 (7000 + TTL_MS)),
   later, []).
Proof.
  intros uploaded rs later.
  refine (proj2 (register_then_lookup six_and_notes_blob notes 7000 7002 rs
                   (7000 + TTL_MS) _ _ _ _ _ _ _)).
  - distinct_keys.
  - reflexivity.
  - intros e He. simpl in He.
    destruct He as [<-|[<-|[<-|[<-|[<-|[<-|[]]]]]]]; vm_compute; discriminate.
  - intros q Hq. simpl in Hq.
    destruct Hq as [<-|[<-|[<-|[<-|[<-|[<-|[]]]]]]]; exact I.
  - intros q Hq. simpl in Hq.
    destruct Hq as [<-|[<-|[<-|[<-|[<-|[<-|[]]]]]]]; vm_compute;
      try discriminate; exact I.
  - lia.
  - unfold evicted_for_capacity. vm_compute. intuition discriminate.
Defined.

(** ** The expiry an upload announces *)

(** C4, at the failing input.  [Date.now()] reads 1000 when the record is
    stored and 1005 when the response is built: the upload answers an expiry
    of 1005 plus 24 hours, while the stored [uploadTime] is 1000 and the
    metadata request reports 1000 plus 24 hours. *)
Theorem upload_expiry_is_read_at_response_time :
  let r := api_upload (Some notes) 1000 1005 only_notes_blob in
  result_of r =
    mkResponse 200 (UploadJson "0f3a" "File uploaded successfully" (1005 + TTL_MS)) /\
  option_map uploadTime (JsMap.get "0f3a" (fileMetadata (store_of r))) = Some 1000 /\
  result_of (api_file "0f3a" 1006 (store_of r)) =
    mkResponse 200 (FileJson "0f3a" "notes.txt" 10 "text/plain" 1000 (1000 + TTL_MS)) /\
  1005 + TTL_MS <> 1000 + TTL_MS.
Proof.
  cbv zeta. split; [|split; [|split]]; try (vm_compute; reflexivity).
  unfold TTL_MS. lia.
Qed.

(** The upload handler announces the response-time reading plus the time to
    live, whatever the store; the metadata handler announces the stored
    [uploadTime] plus the time to live. *)
Lemma upload_expiry_formula (s : Store) (f : UploadedFile) (stored responded : Z) :
  body (result_of (api_upload (Some f) stored responded s)) =
  UploadJson (basename_no_ext (f_filename f)) "File uploaded successfully"
             (responded + TTL_MS).
Proof. now rewrite api_upload_result. Qed.

(** ** A blob missing on disk *)

(** The download handler checks the disk.  When the entry is present and
    unexpired and the blob is missing, the download answers "File not found
    on disk", an answer that is neither "File not found" nor "File has
    expired", and removes the entry from the index. *)
Lemma download_purges_missing_blob
        (s : Store) (fileId : string) (metadata : Metadata) (now : Z) :
  JsMap.get fileId (fileMetadata s) = Some metadata ->
  now - uploadTime metadata <= TTL_MS ->
  mem (filePath metadata) (blobs (disk s)) = false ->
  result_of (api_download fileId now s) = not_on_disk /\
  not_on_disk <> not_found /\
  not_on_disk <> has_expired /\
  JsMap.get fileId (fileMetadata (store_of (api_download fileId now s))) = None.
Proof.
  intros G E B. apply is_expired_le in E.
  rewrite (api_download_purged fileId now s metadata G E B).
  cbn [result_of store_of fst snd purged_store fileMetadata].
  repeat split; try discriminate.
  apply JsMapFacts.get_delete_same.
Qed.

Lemma download_purges_missing_blob_witness :
  result_of (api_download "77aa" 2000 picture_blob_gone) = not_on_disk /\
  JsMap.get "77aa" (fileMetadata (store_of (api_download "77aa" 2000 picture_blob_gone)))
    = None.
Proof.
  assert (G : JsMap.get "77aa" (fileMetadata picture_blob_gone) = Some picture)
    by reflexivity.
  assert (E : 2000 - uploadTime picture <= TTL_MS) by (vm_compute; discriminate).
  assert (B : mem (filePath picture) (blobs (disk picture_blob_gone)) = false)
    by reflexivity.
  destruct (download_purges_missing_blob picture_blob_gone "77aa" picture 2000 G E B)
    as [H1 [_ [_ H4]]].
  split; [exact H1 | exact H4].
Defined.


(** The preview handler leaves the store of a present, unexpired record as
    it is and performs no access check, whatever the disk holds. *)
Lemma preview_never_checks_disk (s : Store) (fileId : string) (metadata : Metadata) (now : Z) :
  JsMap.get fileId (fileMetadata s) = Some metadata ->
  is_expired now metadata = false ->
  store_of (api_preview fileId now s) = s /\ trace_of (api_preview fileId now s) = [].
Proof. intros G E. now rewrite (api_preview_fresh fileId now s metadata G E). Qed.

(** ** The share page *)

(** C8, at the failing input.  For the picture uploaded at 1000, one
    millisecond after its time to live has passed: the metadata handler
    answers "File has expired" and evicts, while the share page answers 200
    with the record's name and size, and leaves the record in the index. *)
Theorem share_page_renders_expired_record :
  let now := 1000 + TTL_MS + 1 in
  is_expired now picture = true /\
  result_of (api_file "77aa" now picture_on_disk) = has_expired /\
  file_page "77aa" picture_on_disk =
    (mkResponse 200 (EmbedPage "cat.png" "cat.png" 2048 (Some "77aa") "77aa"),
     picture_on_disk, []).
Proof. cbv zeta. repeat split. Qed.

(** The share page renders every record of the index, whatever the clock
    reads, and touches neither the index nor the disk. *)
Lemma share_page_reads_no_clock (s : Store) (fileId : string) (metadata : Metadata) :
  JsMap.get fileId (fileMetadata s) = Some metadata ->
  exists image,
    file_page fileId s =
    (mkResponse 200 (EmbedPage (originalName metadata) (originalName metadata)
                               (size metadata) image fileId),
     s, []).
Proof. intros G. rewrite (file_page_present fileId s metadata G). eauto. Qed.

(** ** Preview *)

Section PreviewTypes.

Lemma prefix_starts_with pre s :
  String.prefix pre s = true <-> starts_with pre s.
Proof.
  unfold starts_with. revert s.
  induction pre as [|a pre IH]; intros s; simpl.
  - split; [intros _; exists s; reflexivity | now destruct s].
  - destruct s as [|b s]; simpl.
    + split; [discriminate | intros [rest H]; discriminate].
    + destruct (Ascii.ascii_dec a b) as [->|Hne].
      * rewrite IH. split; intros [rest H]; exists rest.
        -- now rewrite H.
        -- now injection H.
      * split; [discriminate|]. intros [rest H]. injection H as H1 H2.
        congruence.
Qed.

Lemma isPreviewable_false metadata :
  (forall type, In type previewableTypes ->
                ~ starts_with type (mimetype metadata)) ->
  isPreviewable metadata = false.
Proof.
  intros H. unfold isPreviewable.
  destruct (existsb _ previewableTypes) eqn:E; [|reflexivity].
  apply existsb_exists in E. destruct E as [type [Hin Hp]].
  apply prefix_starts_with in Hp. exfalso. exact (H type Hin Hp).
Qed.

End PreviewTypes.

(** C9.  For a present, unexpired record whose mime type starts with none of
    the four allowed prefixes, the preview answers 400 "File type not
    previewable", sends no file, and leaves store and disk untouched; and
    the type is looked at last: an absent identifier gets "File not found"
    and an expired record "File has expired", whatever its type. *)
Theorem preview_rejects_other_types
        (s : Store) (fileId : string) (metadata : Metadata) (now : Z) :
  JsMap.get fileId (fileMetadata s) = Some metadata ->
  now - uploadTime metadata <= TTL_MS ->
  (forall type, In type previewableTypes ->
                ~ starts_with type (mimetype metadata)) ->
  api_preview fileId now s = (not_previewable, s, []) /\
  status not_previewable = 400 /\
  (forall s' now', JsMap.get fileId (fileMetadata s') = None ->
     result_of (api_preview fileId now' s') = not_found) /\
  (forall s' now', JsMap.get fileId (fileMetadata s') = Some metadata ->
     now' - uploadTime metadata > TTL_MS ->
     result_of (api_preview fileId now' s') = has_expired).
Proof.
  intros G E T. apply is_expired_le in E.
  split; [|split; [reflexivity|split]].
  - rewrite (api_preview_fresh fileId now s metadata G E).
    now rewrite (isPreviewable_false metadata T).
  - intros s' now' G'. now rewrite (api_preview_absent fileId now' s' G').
  - intros s' now' G' E'. apply is_expired_gt in E'.
    now rewrite (api_preview_expired fileId now' s' metadata G' E').
Qed.

Lemma preview_rejects_other_types_witness :
  api_preview "a1" 2000 six_on_disk = (not_previewable, six_on_disk, []) /\
  result_of (api_preview "a1" (1000 + TTL_MS + 1) six_on_disk) = has_expired /\
  result_of (api_preview "a1" 2000 picture_on_disk) = not_found.
Proof.
  assert (G : JsMap.get "a1" (fileMetadata six_on_disk) = Some (snd (archive "a1" 1000)))
    by reflexivity.
  assert (E : 2000 - uploadTime (snd (archive "a1" 1000)) <= TTL_MS)
    by (vm_compute; discriminate).
  assert (T : forall type, In type previewableTypes ->
                ~ starts_with type (mimetype (snd (archive "a1" 1000)))).
  { intros type Hin Hs. apply prefix_starts_with in Hs.
    destruct Hin as [<-|[<-|[<-|[<-|[]]]]]; discriminate Hs. }
  destruct (preview_rejects_other_types six_on_disk "a1" _ 2000 G E T)
    as [H1 [_ [H3 H4]]].
  split; [exact H1|split].
  - apply H4; [exact G | vm_compute; reflexivity].
  - apply H3. reflexivity.
Defined.

(** ** The order of unlink and delete *)

Section DeletionOrder.
Import JsMap JsMapFacts.





End DeletionOrder.




(** ** Oldest first *)

Section OldestFirst.
Import JsMap JsMapFacts.





Lemma cap_while_turn_ok fuel taken tot e rest s :
  tot > MAX_STORAGE ->
  unlink_ok (filePath (snd e)) (disk s) = true ->
  let r := cap_while fuel (S taken)
                     {| totalSize := tot - size (snd e); files := rest |}
                     (evicted_store e s) in
  cap_while (S fuel) taken {| totalSize := tot; files := e :: rest |} s =
  (result_of r, store_of r, evicted_trace e ++ trace_of r).
Proof.
  intros Hgt Hu. cbn [cap_while]. rewrite cap_cond_cons.
  replace (tot >? MAX_STORAGE) with true by (symmetry; apply Z.gtb_lt; lia).
  unfold bind. rewrite cap_body_ok by exact Hu.
  destruct (cap_while fuel (S taken) _ _) as [[o s2] t2]. reflexivity.
Qed.

Lemma cap_while_turn_rejected fuel taken tot e rest s :
  tot > MAX_STORAGE ->
  unlink_ok (filePath (snd e)) (disk s) = false ->
  let r := cap_while fuel (S taken) {| totalSize := tot; files := rest |} s in
  cap_while (S fuel) taken {| totalSize := tot; files := e :: rest |} s =
  (result_of r, store_of r, skipped_trace e ++ trace_of r).
Proof.
  intros Hgt Hu. cbn [cap_while]. rewrite cap_cond_cons.
  replace (tot >? MAX_STORAGE) with true by (symmetry; apply Z.gtb_lt; lia).
  unfold bind. rewrite cap_body_rejected by exact Hu.
  destruct (cap_while fuel (S taken) _ _) as [[o s2] t2]. reflexivity.
Qed.



End OldestFirst.




(** * Further properties of the code *)

(** ** The expiry sweep of [src/server.js] *)

Section ExpirySweep.
Import JsMap JsMapFacts.

Lemma clean_one_get_other id id' s :
  id <> id' ->
  get id' (fileMetadata (store_of (clean_one id s))) = get id' (fileMetadata s).
Proof.
  intros Hne. unfold clean_one, bind, map_get, fs_unlink, map_delete,
                     console_log, console_error.
  destruct (get id (fileMetadata s)) as [md|]; cbn; [|reflexivity].
  destruct (unlink_ok (filePath md) (disk s)); cbn; [|reflexivity].
  now apply get_delete_other.
Qed.

Lemma for_each_clean_get ids id' s :
  ~ In id' ids ->
  get id' (fileMetadata (store_of (for_each clean_one ids s))) =
  get id' (fileMetadata s).
Proof.
  revert s. induction ids as [|id ids IH]; intros s Hni; [reflexivity|].
  cbn [for_each]. rewrite bind_store. rewrite IH by (intros H; apply Hni; now right).
  apply clean_one_get_other. intros ->. apply Hni. now left.
Qed.

Lemma expiredFiles_In now (m : JsMap.t) id :
  wf m ->
  (In id (expiredFiles now m) <->
   exists metadata, get id m = Some metadata /\ is_expired now metadata = true).
Proof.
  intros Hwf. unfold expiredFiles. rewrite in_map_iff. split.
  - intros [[k v] [Hk Hin]]. cbn in Hk. subst k.
    apply filter_In in Hin. destruct Hin as [Hin E]. exists v.
    split; [now apply In_get | exact E].
  - intros [md [G E]]. exists (id, md). split; [reflexivity|].
    apply filter_In. split; [now apply get_In | exact E].
Qed.

Lemma clean_one_wf id s :
  wf (fileMetadata s) -> wf (fileMetadata (store_of (clean_one id s))).
Proof.
  intros H. destruct (clean_one_drops id s) as [p ->]. now apply wf_filter.
Qed.

(** A record that a sweep was asked to clean and that is still there had its
    unlink rejected. *)
Lemma for_each_clean_left ids s e :
  wf (fileMetadata s) ->
  In e (fileMetadata (store_of (for_each clean_one ids s))) ->
  In (fst e) ids ->
  In (EvUnlink (filePath (snd e)) false) (trace_of (for_each clean_one ids s)).
Proof.
  revert s. induction ids as [|id ids IH]; intros s Hwf He Hin; [destruct Hin|].
  cbn [for_each] in *. rewrite bind_store in He. rewrite bind_trace.
  apply in_or_app.
  destruct (in_dec string_dec (fst e) ids) as [Hids|Hids].
  - right. apply IH; [now apply clean_one_wf | exact He | exact Hids].
  - left. destruct Hin as [Hid|Hin]; [subst id | contradiction].
    assert (G1 : get (fst e) (fileMetadata (store_of (clean_one (fst e) s))) =
                 Some (snd e)).
    { rewrite <- (for_each_clean_get ids (fst e) _ Hids).
      apply In_get.
      - destruct (for_each_clean_drops ids (store_of (clean_one (fst e) s)))
          as [p ->]. apply wf_filter. now apply clean_one_wf.
      - now destruct e. }
    revert G1. unfold clean_one, bind, map_get, fs_unlink, map_delete,
                      console_log, console_error.
    destruct (get (fst e) (fileMetadata s)) as [md|] eqn:G; cbn -[delete get].
    + destruct (unlink_ok (filePath md) (disk s)) eqn:U; cbn -[delete get].
      * rewrite get_delete_same. discriminate.
      * rewrite G. intros [= ->]. now left.
    + rewrite G. discriminate.
Qed.

Lemma cleanExpiredFiles_store now s :
  store_of (cleanExpiredFiles now s) =
  store_of (for_each clean_one (expiredFiles now (fileMetadata s)) s).
Proof. unfold cleanExpiredFiles. rewrite bind_store. reflexivity. Qed.

Lemma cleanExpiredFiles_trace now s :
  trace_of (cleanExpiredFiles now s) =
  trace_of (for_each clean_one (expiredFiles now (fileMetadata s)) s).
Proof. unfold cleanExpiredFiles. rewrite bind_trace. reflexivity. Qed.

End ExpirySweep.

(** X1.  The expiry sweep spares what has not expired: a record whose age at
    the sweep is at most 24 hours keeps its index entry unchanged, and when
    its blob is on disk and no other record points at it, the blob stays. *)
Theorem expiry_sweep_spares_unexpired
        (s : Store) (now : Z) (fileId : string) (metadata : Metadata) :
  JsMap.wf (fileMetadata s) ->
  JsMap.get fileId (fileMetadata s) = Some metadata ->
  now - uploadTime metadata <= TTL_MS ->
  JsMap.get fileId (fileMetadata (store_of (cleanExpiredFiles now s))) =
    Some metadata /\
  (settled fileId metadata s ->
   access_ok (filePath metadata) (disk (store_of (cleanExpiredFiles now s))) = true).
Proof.
  intros Hwf G Hnow. split.
  - rewrite cleanExpiredFiles_store.
    rewrite for_each_clean_get; [exact G|].
    rewrite (expiredFiles_In now (fileMetadata s) fileId Hwf).
    intros [md [G' E]]. rewrite G in G'. injection G' as <-.
    apply is_expired_gt in E. lia.
  - intros Hs. now destruct (expiry_sweep_settled fileId metadata s now Hs Hnow)
      as [_ [_ [A _]]].
Qed.

Lemma expiry_sweep_spares_unexpired_witness :
  JsMap.get "f6" (fileMetadata
                    (store_of (cleanExpiredFiles (5000 + TTL_MS + 1) six_on_disk))) =
  Some (snd (archive "f6" 6000)) /\
  JsMap.get "a1" (fileMetadata
                    (store_of (cleanExpiredFiles (5000 + TTL_MS + 1) six_on_disk))) =
  None.
Proof.
  split.
  - refine (proj1 (expiry_sweep_spares_unexpired six_on_disk (5000 + TTL_MS + 1)
                     "f6" (snd (archive "f6" 6000)) _ _ _)).
    + distinct_keys.
    + reflexivity.
    + vm_compute. discriminate.
  - reflexivity.
Defined.

(** X2.  The expiry sweep is complete up to rejected unlinks: after a sweep,
    every record left in the index is at most 24 hours old at the sweep's
    clock, or the sweep tried to unlink its blob and was rejected.  A sweep
    without rejected unlink leaves no expired record. *)
Theorem expiry_sweep_leaves_no_expired (s : Store) (now : Z) :
  JsMap.wf (fileMetadata s) ->
  (forall e, In e (fileMetadata (store_of (cleanExpiredFiles now s))) ->
     now - uploadTime (snd e) <= TTL_MS \/
     In (EvUnlink (filePath (snd e)) false) (trace_of (cleanExpiredFiles now s))) /\
  (unlink_rejected (trace_of (cleanExpiredFiles now s)) = false ->
   forall e, In e (fileMetadata (store_of (cleanExpiredFiles now s))) ->
             now - uploadTime (snd e) <= TTL_MS).
Proof.
  intros Hwf.
  assert (Hgen : forall e,
             In e (fileMetadata (store_of (cleanExpiredFiles now s))) ->
             now - uploadTime (snd e) <= TTL_MS \/
             In (EvUnlink (filePath (snd e)) false)
                (trace_of (cleanExpiredFiles now s))).
  { intros e He.
    destruct (is_expired now (snd e)) eqn:E;
      [|left; now apply is_expired_le].
    right. rewrite cleanExpiredFiles_store in He. rewrite cleanExpiredFiles_trace.
    apply for_each_clean_left; [exact Hwf | exact He |].
    destruct (for_each_clean_drops (expiredFiles now (fileMetadata s)) s) as [p Hp].
    rewrite Hp in He. apply filter_In in He. destruct He as [He _].
    apply (expiredFiles_In now (fileMetadata s) (fst e) Hwf).
    exists (snd e). split; [|exact E].
    apply JsMapFacts.In_get; [exact Hwf | now destruct e]. }
  split; [exact Hgen|].
  intros Hclean e He. destruct (Hgen e He) as [H|H]; [exact H|].
  apply rejected_in_trace in H. congruence.
Qed.

Lemma expiry_sweep_leaves_no_expired_witness :
  JsMap.wf (fileMetadata six_on_disk) /\
  unlink_rejected (trace_of (cleanExpiredFiles (3000 + TTL_MS + 1) six_on_disk))
    = false /\
  (forall e,
     In e (fileMetadata (store_of (cleanExpiredFiles (3000 + TTL_MS + 1) six_on_disk))) ->
     3000 + TTL_MS + 1 - uploadTime (snd e) <= TTL_MS).
Proof.
  assert (W : JsMap.wf (fileMetadata six_on_disk)) by distinct_keys.
  assert (R : unlink_rejected
                (trace_of (cleanExpiredFiles (3000 + TTL_MS + 1) six_on_disk)) = false)
    by (vm_compute; reflexivity).
  split; [exact W|split; [exact R|]].
  exact (proj2 (expiry_sweep_leaves_no_expired six_on_disk (3000 + TTL_MS + 1) W) R).
Defined.

(** ** One threshold for every expiry test *)

(** X3.  The metadata, download and preview handlers and the expiry sweep
    agree on when a record is expired: strictly more than 24 hours after its
    upload time.  At exactly 24 hours the record is still served and not
    selected by the sweep; one millisecond later every one of them treats it
    as expired. *)
Theorem expiry_threshold_is_shared
        (s : Store) (fileId : string) (metadata : Metadata) (now : Z) :
  JsMap.wf (fileMetadata s) ->
  JsMap.get fileId (fileMetadata s) = Some metadata ->
  (result_of (api_file fileId now s) = has_expired <->
   now > uploadTime metadata + TTL_MS) /\
  (result_of (api_download fileId now s) = has_expired <->
   now > uploadTime metadata + TTL_MS) /\
  (result_of (api_preview fileId now s) = has_expired <->
   now > uploadTime metadata + TTL_MS) /\
  (In fileId (expiredFiles now (fileMetadata s)) <->
   now > uploadTime metadata + TTL_MS).
Proof.
  intros Hwf G.
  destruct (is_expired now metadata) eqn:E.
  - assert (Hgt : now > uploadTime metadata + TTL_MS)
      by (apply is_expired_gt in E; lia).
    rewrite (api_file_expired fileId now s metadata G E).
    rewrite (api_download_expired fileId now s metadata G E).
    rewrite (api_preview_expired fileId now s metadata G E).
    cbn [result_of fst].
    repeat split; auto.
    intros _. apply (expiredFiles_In now (fileMetadata s) fileId Hwf). eauto.
  - assert (Hle : now - uploadTime metadata <= TTL_MS) by now apply is_expired_le.
    rewrite (api_file_fresh fileId now s metadata G E).
    rewrite (api_preview_fresh fileId now s metadata G E).
    cbn [result_of fst].
    split; [split; [discriminate | lia]|].
    split.
    { destruct (access_ok (filePath metadata) (disk s)) eqn:A.
      - rewrite (api_download_sent fileId now s metadata G E A).
        split; [discriminate | lia].
      - rewrite (api_download_purged fileId now s metadata G E A).
        split; [discriminate | lia]. }
    split.
    { destruct (isPreviewable metadata); split; try discriminate; lia. }
    split; [|lia].
    intros Hin. apply (expiredFiles_In now (fileMetadata s) fileId Hwf) in Hin.
    destruct Hin as [md [G' E']]. rewrite G in G'. injection G' as <-.
    congruence.
Qed.

Lemma expiry_threshold_is_shared_witness :
  (result_of (api_file "a1" (1000 + TTL_MS) six_on_disk) = has_expired <->
   1000 + TTL_MS > 1000 + TTL_MS) /\
  (In "a1" (expiredFiles (1000 + TTL_MS + 1) (fileMetadata six_on_disk)) <->
   1000 + TTL_MS + 1 > 1000 + TTL_MS).
Proof.
  assert (W : JsMap.wf (fileMetadata six_on_disk)) by distinct_keys.
  assert (G : JsMap.get "a1" (fileMetadata six_on_disk) =
              Some (snd (archive "a1" 1000))) by reflexivity.
  split.
  - exact (proj1 (expiry_threshold_is_shared six_on_disk "a1" _ (1000 + TTL_MS) W G)).
  - exact (proj2 (proj2 (proj2 (expiry_threshold_is_shared six_on_disk "a1" _
                                  (1000 + TTL_MS + 1) W G)))).
Defined.

(** ** How much a capacity pass evicts *)

Section CapacityAmount.
Import JsMap JsMapFacts.

(** The loop deletes nothing, or the sum it leaves plus the size of some
    record it dropped is over the cap. *)
Lemma cap_while_no_more_than_needed fuel taken l s :
  (List.length (files l) <= fuel)%nat ->
  wf (fileMetadata s) ->
  NoDup (map fst (files l)) ->
  (forall e, In e (files l) -> In e (fileMetadata s)) ->
  totalSize l = total (fileMetadata s) ->
  let r := cap_while fuel taken l s in
  (forall e, In e (fileMetadata (store_of r)) -> In e (fileMetadata s)) /\
  (fileMetadata (store_of r) = fileMetadata s \/
   exists e, In e (fileMetadata s) /\ ~ In e (fileMetadata (store_of r)) /\
             total (fileMetadata (store_of r)) + size (snd e) > MAX_STORAGE).
Proof.
  intros Hfuel. cbv zeta.
  pattern taken, l, s, (cap_while fuel taken l s).
  apply cap_while_ind; [| | |exact Hfuel]; clear.
  - intros tk l s _ _ _ _ _. cbn [store_of fst snd]. split; [auto | now left].
  - intros tk tot e rest s r Hgt Hu IH Hwf Hnd Hin.
    cbn [files totalSize store_of fst snd] in *.
    inversion Hnd as [|? ? Hni Hnd']; subst. intros Htot.
    assert (He : In e (fileMetadata s)) by (apply Hin; now left).
    assert (Htot1 : total (delete (fst e) (fileMetadata s)) = tot - size (snd e)).
    { destruct e as [k v]. cbn [fst snd] in *.
      rewrite (total_delete k v _ Hwf He). lia. }
    destruct IH as [Hsub IH].
    + now apply wf_delete.
    + exact Hnd'.
    + intros e' He'. unfold evicted_store. cbn [fileMetadata].
      apply In_delete. split; [apply Hin; now right|].
      intros E. apply Hni. rewrite <- E. now apply in_map.
    + unfold evicted_store. cbn [fileMetadata]. now rewrite Htot1.
    + unfold evicted_store in *. cbn [fileMetadata] in *. split.
      * intros e' He'. apply Hsub in He'. apply In_delete in He'. tauto.
      * right. destruct IH as [Heq|[e' [He' [Hout Hbig]]]].
        -- exists e. split; [exact He|]. split.
           ++ rewrite Heq. intros H. apply In_delete in H. tauto.
           ++ rewrite Heq, Htot1. lia.
        -- exists e'. apply In_delete in He'. tauto.
  - intros tk tot e rest s r _ Hu IH Hwf Hnd Hin.
    cbn [files totalSize store_of fst snd] in *.
    inversion Hnd as [|? ? Hni Hnd']; subst. intros Htot.
    apply IH; auto. intros e' He'. apply Hin. now right.
Qed.

End CapacityAmount.

(** X4.  A capacity pass evicts no more than the cap asks for.  When the sum
    of sizes is within the cap, the pass changes nothing, unlinks nothing and
    prints nothing.  Otherwise, whatever the disk does, either the index is
    left as it was or some record the pass dropped was needed: the sum it
    leaves, plus that record's size, is over the cap. *)
Theorem capacity_pass_evicts_only_as_needed (s : Store) :
  JsMap.wf (fileMetadata s) ->
  (JsMap.total (fileMetadata s) <= MAX_STORAGE ->
   manageStorageCapacity s = (tt, s, [])) /\
  (fileMetadata (store_of (manageStorageCapacity s)) = fileMetadata s \/
   exists e,
     In e (fileMetadata s) /\
     ~ In e (fileMetadata (store_of (manageStorageCapacity s))) /\
     JsMap.total (fileMetadata (store_of (manageStorageCapacity s)))
       + size (snd e) > MAX_STORAGE).
Proof.
  intros Hwf. split; [apply capacity_pass_idle|].
  pose proof (manageStorageCapacity_unfold s) as Hun. cbv zeta in Hun.
  rewrite Hun. cbn [store_of fst snd].
  apply cap_while_no_more_than_needed.
  - apply cap_init_fits.
  - exact Hwf.
  - cbn [cap_init files]. now apply sort_by_time_keys.
  - cbn [cap_init files]. intros e. apply sort_by_time_In.
  - apply cap_init_total.
Qed.

Lemma capacity_pass_evicts_only_as_needed_witness :
  JsMap.wf (fileMetadata six_on_disk) /\
  (fileMetadata (store_of (manageStorageCapacity six_on_disk)) =
   fileMetadata six_on_disk \/
   exists e,
     In e (fileMetadata six_on_disk) /\
     ~ In e (fileMetadata (store_of (manageStorageCapacity six_on_disk))) /\
     JsMap.total (fileMetadata (store_of (manageStorageCapacity six_on_disk)))
       + size (snd e) > MAX_STORAGE).
Proof.
  assert (W : JsMap.wf (fileMetadata six_on_disk)) by distinct_keys.
  split; [exact W|].
  exact (proj2 (capacity_pass_evicts_only_as_needed six_on_disk W)).
Defined.

(** ** Which records a capacity pass evicts *)

Section CapacityOrder.
Import JsMap JsMapFacts.

Lemma cap_while_oldest_first fuel taken l s :
  (List.length (files l) <= fuel)%nat ->
  wf (fileMetadata s) ->
  NoDup (map fst (files l)) ->
  StronglySorted time_le (files l) ->
  (forall e, In e (fileMetadata s) <-> In e (files l)) ->
  let r := cap_while fuel taken l s in
  unlink_rejected (trace_of r) = false ->
  (forall e, In e (fileMetadata (store_of r)) -> In e (fileMetadata s)) /\
  (forall e e', In e (fileMetadata s) -> ~ In e (fileMetadata (store_of r)) ->
                In e' (fileMetadata (store_of r)) ->
                uploadTime (snd e) <= uploadTime (snd e')).
Proof.
  intros Hfuel. cbv zeta.
  pattern taken, l, s, (cap_while fuel taken l s).
  apply cap_while_ind; [| | |exact Hfuel]; clear.
  - intros tk l s _ _ _ _ _ _. cbn [store_of fst snd].
    split; [auto|]. intros e e' He Hout. contradiction.
  - intros tk tot e rest s r _ Hu IH Hwf Hnd Hsorted Hiff Hclean.
    cbn [files store_of trace_of fst snd] in *.
    inversion Hnd as [|? ? Hni Hnd']; subst.
    apply StronglySorted_inv in Hsorted. destruct Hsorted as [Hsorted Hhead].
    rewrite Forall_forall in Hhead.
    assert (Hiff1 : forall x, In x (fileMetadata (evicted_store e s)) <-> In x rest).
    { intros x. unfold evicted_store. cbn [fileMetadata]. rewrite In_delete, Hiff.
      split.
      - intros [[<-|Hx] Hne]; [contradiction | exact Hx].
      - intros Hx. split; [now right|]. intros E. apply Hni. rewrite <- E.
        now apply in_map. }
    destruct IH as [Hsub Hord]; auto.
    { now apply wf_delete. }
    split.
    + intros x Hx. apply Hsub in Hx. apply Hiff1 in Hx. apply Hiff. now right.
    + intros x x' Hx Hout Hx'.
      assert (Hx'rest : In x' rest) by (apply Hiff1, Hsub, Hx').
      apply Hiff in Hx. destruct Hx as [<-|Hx].
      * apply Hhead. exact Hx'rest.
      * apply (Hord x x'); [now apply Hiff1 | exact Hout | exact Hx'].
  - intros tk tot e rest s r _ Hu IH Hwf Hnd Hsorted Hiff Hclean.
    cbn in Hclean. discriminate Hclean.
Qed.

End CapacityOrder.

(** X5.  Oldest first, for any number of evictions: after a capacity pass in
    which no unlink was rejected, every record the pass removed was uploaded
    no later than every record it left in the index. *)
Theorem capacity_pass_evicts_oldest (s : Store) :
  JsMap.wf (fileMetadata s) ->
  unlink_rejected (trace_of (manageStorageCapacity s)) = false ->
  forall e e',
    In e (fileMetadata s) ->
    ~ In e (fileMetadata (store_of (manageStorageCapacity s))) ->
    In e' (fileMetadata (store_of (manageStorageCapacity s))) ->
    uploadTime (snd e) <= uploadTime (snd e').
Proof.
  intros Hwf. pose proof (manageStorageCapacity_unfold s) as Hun.
  cbv zeta in Hun. rewrite Hun. cbn [store_of trace_of fst snd]. intros Hclean.
  apply (cap_while_oldest_first (List.length (fileMetadata s)) 0
           (cap_init (fileMetadata s)) s).
  - apply cap_init_fits.
  - exact Hwf.
  - cbn [cap_init files]. now apply sort_by_time_keys.
  - cbn [cap_init files]. apply sort_by_time_sorted.
  - cbn [cap_init files]. intros e. symmetry. apply sort_by_time_In.
  - exact Hclean.
Qed.

Lemma capacity_pass_evicts_oldest_witness :
  JsMap.wf (fileMetadata six_and_notes_blob) /\
  unlink_rejected (trace_of (manageStorageCapacity six_and_notes_blob)) = false /\
  ~ In (archive "a1" 1000)
       (fileMetadata (store_of (manageStorageCapacity six_and_notes_blob))) /\
  uploadTime (snd (archive "a1" 1000)) <= uploadTime (snd (archive "c3" 3000)).
Proof.
  assert (W : JsMap.wf (fileMetadata six_and_notes_blob)) by distinct_keys.
  assert (R : unlink_rejected
                (trace_of (manageStorageCapacity six_and_notes_blob)) = false)
    by (vm_compute; reflexivity).
  assert (O : ~ In (archive "a1" 1000)
                   (fileMetadata (store_of (manageStorageCapacity six_and_notes_blob)))).
  { vm_compute. intuition discriminate. }
  split; [exact W|split; [exact R|split; [exact O|]]].
  apply (capacity_pass_evicts_oldest six_and_notes_blob W R
           (archive "a1" 1000) (archive "c3" 3000)).
  - simpl. now left.
  - exact O.
  - vm_compute. intuition.
Defined.

(** ** An upload evicted by its own capacity pass *)

Section UploadEvicted.
Import JsMap JsMapFacts.

(** The loop, over the cap, walks past candidates whose unlink is rejected
    and evicts the first one whose unlink is fulfilled. *)
Lemma cap_while_reaches pre :
  forall fuel taken tot e post s,
    (List.length (pre ++ e :: post) <= fuel)%nat ->
    tot > MAX_STORAGE ->
    (forall x, In x pre -> unlink_ok (filePath (snd x)) (disk s) = false) ->
    unlink_ok (filePath (snd e)) (disk s) = true ->
    get (fst e)
        (fileMetadata
           (store_of (cap_while fuel taken
                        {| totalSize := tot; files := pre ++ e :: post |} s))) = None.
Proof.
  induction pre as [|x pre IH]; intros fuel taken tot e post s Hfuel Hgt Hrej Hok.
  - cbn [app] in *. destruct fuel as [|fuel]; [cbn in Hfuel; lia|].
    rewrite (cap_while_turn_ok fuel taken tot e post s Hgt Hok).
    cbn [store_of fst snd].
    destruct (cap_while_drops fuel (S taken)
                {| totalSize := tot - size (snd e); files := post |}
                (evicted_store e s)) as [p Hp].
    { cbn in *. lia. }
    cbn [store_of] in Hp. rewrite Hp. apply get_filter_None.
    apply get_delete_same.
  - cbn [app] in *. destruct fuel as [|fuel]; [cbn in Hfuel; lia|].
    rewrite (cap_while_turn_rejected fuel taken tot x (pre ++ e :: post) s Hgt).
    + cbn [store_of fst snd]. apply IH; auto.
      * cbn in *. lia.
      * intros y Hy. apply Hrej. now right.
    + apply Hrej. now left.
Qed.

End UploadEvicted.

(** X6.  An upload answers 200 with its identifier even when its own capacity
    pass has evicted the record it just stored.  This happens when the index
    is over the cap once the record is inserted, the blob of the new record
    can be unlinked, and every record sorted before it by upload time has a
    blob whose unlink is rejected (none, when the new record sorts first): a
    metadata request on the returned identifier then answers "File not
    found". *)
Theorem upload_can_lose_its_record
        (s : Store) (f : UploadedFile) (stored responded : Z)
        (pre post : list (string * Metadata)) :
  let fileId := basename_no_ext (f_filename f) in
  let inserted := JsMap.set fileId (stored_metadata f stored) (fileMetadata s) in
  sort_by_time inserted = pre ++ (fileId, stored_metadata f stored) :: post ->
  JsMap.total inserted > MAX_STORAGE ->
  (forall x, In x pre -> unlink_ok (filePath (snd x)) (disk s) = false) ->
  unlink_ok (f_path f) (disk s) = true ->
  result_of (api_upload (Some f) stored responded s) =
    mkResponse 200 (UploadJson fileId "File uploaded successfully"
                               (responded + TTL_MS)) /\
  forall now,
    result_of (api_file fileId now
                        (store_of (api_upload (Some f) stored responded s))) =
    not_found.
Proof.
  intros fileId inserted Hsort Hcap Hrej Hok.
  split; [apply api_upload_result|].
  intros now. rewrite api_file_absent; [reflexivity|].
  rewrite api_upload_store. fold fileId. fold inserted.
  pose proof (manageStorageCapacity_unfold
                {| fileMetadata := inserted; disk := disk s |}) as Hun.
  cbv zeta in Hun. rewrite Hun. cbn [store_of fst snd fileMetadata].
  unfold cap_init. rewrite Hsort.
  apply (cap_while_reaches pre (List.length inserted) 0 _
           (fileId, stored_metadata f stored) post
           {| fileMetadata := inserted; disk := disk s |}).
  - rewrite <- Hsort, sort_by_time_length. lia.
  - rewrite fold_left_total. rewrite <- Hsort.
    rewrite (total_perm _ _ (sort_by_time_perm inserted)). lia.
  - exact Hrej.
  - exact Hok.
Qed.

Lemma upload_can_lose_its_record_witness :
  let s := {| fileMetadata := six_archives;
              disk := {| blobs := ["uploads/0f3a.txt"]; refused := [] |} |} in
  result_of (api_upload (Some notes) 7000 7002 s) =
    mkResponse 200 (UploadJson "0f3a" "File uploaded successfully" (7002 + TTL_MS)) /\
  result_of (api_file "0f3a" 7003 (store_of (api_upload (Some notes) 7000 7002 s))) =
    not_found.
Proof.
  intros s.
  destruct (upload_can_lose_its_record s notes 7000 7002 six_archives [])
    as [H1 H2].
  - reflexivity.
  - vm_compute. reflexivity.
  - intros x Hx. simpl in Hx.
    destruct Hx as [<-|[<-|[<-|[<-|[<-|[<-|[]]]]]]]; reflexivity.
  - reflexivity.
  - split; [exact H1 | apply H2].
Defined.

(** ** What the handlers do to the disk *)

Section DiskKept.
Import JsMap JsMapFacts.

Lemma mem_remove_true p q l : mem p (remove_path q l) = true -> mem p l = true.
Proof.
  unfold mem, remove_path. induction l as [|x l IH]; simpl; [auto|].
  destruct (String.eqb q x); simpl.
  - intros H. rewrite (IH H). apply orb_true_r.
  - destruct (String.eqb p x); [reflexivity | exact IH].
Qed.

Lemma blobs_kept_refl m d : blobs_kept m d d.
Proof. split; [reflexivity|]. intros p. split; auto. Qed.

Lemma blobs_kept_trans m d1 d2 d3 :
  blobs_kept m d1 d2 -> blobs_kept m d2 d3 -> blobs_kept m d1 d3.
Proof.
  intros [R1 H1] [R2 H2]. split; [congruence|].
  intros p. destruct (H1 p) as [A1 B1]. destruct (H2 p) as [A2 B2]. split.
  - auto.
  - intros Hp. rewrite (B2 Hp). auto.
Qed.

Lemma blobs_kept_mono (m m' : JsMap.t) d d' :
  (forall e, In e m -> In e m') -> blobs_kept m d d' -> blobs_kept m' d d'.
Proof.
  intros Hsub [R H]. split; [exact R|].
  intros p. destruct (H p) as [A B]. split; [exact A|].
  intros Hp. apply B. intros [e [He Hpath]]. apply Hp. exists e. auto.
Qed.

Lemma blobs_kept_unlink (m : JsMap.t) d e :
  In e m -> blobs_kept m d (unlink_disk (filePath (snd e)) d).
Proof.
  intros He. split.
  - unfold unlink_disk. now destruct (unlink_ok _ d).
  - intros p. split.
    + unfold unlink_disk. destruct (unlink_ok _ d); cbn [blobs]; [|auto].
      apply mem_remove_true.
    + intros Hp. apply (access_unlink_other p (filePath (snd e)) d).
      intros ->. apply Hp. exists e. auto.
Qed.

Lemma cap_while_disk (m0 : JsMap.t) fuel taken l s :
  (List.length (files l) <= fuel)%nat ->
  (forall e, In e (files l) -> In e m0) ->
  blobs_kept m0 (disk s) (disk (store_of (cap_while fuel taken l s))).
Proof.
  intros Hfuel.
  pattern taken, l, s, (cap_while fuel taken l s).
  apply cap_while_ind; [| | |exact Hfuel]; clear fuel taken l s Hfuel.
  - intros tk l s _ _. apply blobs_kept_refl.
  - intros tk tot e rest s r _ _ IH Hin. cbn [store_of files fst snd] in *.
    eapply blobs_kept_trans; [|apply IH; intros x Hx; apply Hin; now right].
    unfold evicted_store. cbn [disk]. apply blobs_kept_unlink. apply Hin. now left.
  - intros tk tot e rest s r _ _ IH Hin. cbn [store_of files fst snd] in *.
    apply IH. intros x Hx. apply Hin. now right.
Qed.

Lemma capacity_pass_disk s :
  blobs_kept (fileMetadata s) (disk s) (disk (store_of (manageStorageCapacity s))).
Proof.
  pose proof (manageStorageCapacity_unfold s) as Hun. cbv zeta in Hun.
  rewrite Hun. cbn [store_of fst snd].
  apply cap_while_disk; [apply cap_init_fits|].
  cbn [cap_init files]. intros e. apply sort_by_time_In.
Qed.

Lemma clean_one_disk id s :
  blobs_kept (fileMetadata s) (disk s) (disk (store_of (clean_one id s))).
Proof.
  unfold clean_one, bind, map_get, fs_unlink, map_delete, console_log,
         console_error.
  destruct (get id (fileMetadata s)) as [md|] eqn:G; cbn -[unlink_disk];
    [|apply blobs_kept_refl].
  apply get_In in G.
  destruct (unlink_ok (filePath md) (disk s)); cbn -[unlink_disk];
    apply (blobs_kept_unlink (fileMetadata s) (disk s) (id, md) G).
Qed.

Lemma for_each_clean_disk ids s :
  blobs_kept (fileMetadata s) (disk s)
             (disk (store_of (for_each clean_one ids s))).
Proof.
  revert s. induction ids as [|id ids IH]; intros s; [apply blobs_kept_refl|].
  cbn [for_each]. rewrite bind_store.
  eapply blobs_kept_trans; [apply clean_one_disk|].
  eapply blobs_kept_mono; [|apply IH].
  destruct (clean_one_drops id s) as [p ->]. intros e He.
  apply filter_In in He. tauto.
Qed.

Lemma lazy_store_disk id md s :
  get id (fileMetadata s) = Some md ->
  blobs_kept (fileMetadata s) (disk s) (disk (lazy_store id md s)).
Proof.
  intros G. apply get_In in G. unfold lazy_store. cbn [disk].
  apply (blobs_kept_unlink (fileMetadata s) (disk s) (id, md) G).
Qed.

Lemma reads_disk r s :
  is_access r = true ->
  blobs_kept (fileMetadata s) (disk s) (disk (store_of (handle r s))).
Proof.
  destruct r as [f st rs|id now|id now|id now|id|now|]; intros H;
    try discriminate H; unfold handle; rewrite bind_ret_store.
  - destruct (get id (fileMetadata s)) as [md|] eqn:G.
    + destruct (is_expired now md) eqn:E.
      * rewrite (api_file_expired id now s md G E). now apply lazy_store_disk.
      * rewrite (api_file_fresh id now s md G E). apply blobs_kept_refl.
    + rewrite (api_file_absent id now s G). apply blobs_kept_refl.
  - destruct (get id (fileMetadata s)) as [md|] eqn:G.
    + destruct (is_expired now md) eqn:E.
      * rewrite (api_download_expired id now s md G E). now apply lazy_store_disk.
      * destruct (access_ok (filePath md) (disk s)) eqn:A.
        -- rewrite (api_download_sent id now s md G E A). apply blobs_kept_refl.
        -- rewrite (api_download_purged id now s md G E A). apply blobs_kept_refl.
    + rewrite (api_download_absent id now s G). apply blobs_kept_refl.
  - destruct (get id (fileMetadata s)) as [md|] eqn:G.
    + destruct (is_expired now md) eqn:E.
      * rewrite (api_preview_expired id now s md G E). now apply lazy_store_disk.
      * rewrite (api_preview_fresh id now s md G E). apply blobs_kept_refl.
    + rewrite (api_preview_absent id now s G). apply blobs_kept_refl.
  - rewrite file_page_unchanged. apply blobs_kept_refl.
Qed.

End DiskKept.

(** X7.  No handler and no sweep ever creates a file, changes which unlinks
    the system refuses, or removes a file that no record of the index points
    at: serving any request leaves in place every blob path that is neither
    the [filePath] of a record in the index nor the path of the file the
    request uploads. *)
Theorem untracked_blobs_are_never_touched (r : Request) (s : Store) :
  refused (disk (store_of (handle r s))) = refused (disk s) /\
  forall p,
    (mem p (blobs (disk (store_of (handle r s)))) = true ->
     mem p (blobs (disk s)) = true) /\
    (~ tracked_path p (fileMetadata s) -> upload_path r <> Some p ->
     mem p (blobs (disk (store_of (handle r s)))) = mem p (blobs (disk s))).
Proof.
  assert (H : exists m,
             blobs_kept m (disk s) (disk (store_of (handle r s))) /\
             forall p, tracked_path p m ->
                       tracked_path p (fileMetadata s) \/ upload_path r = Some p).
  { destruct r as [[f|] st rs|id now|id now|id now|id|now|].
    - exists (JsMap.set (basename_no_ext (f_filename f)) (stored_metadata f st)
                        (fileMetadata s)).
      split.
      + unfold handle. rewrite bind_ret_store, api_upload_store.
        apply (capacity_pass_disk
                 {| fileMetadata := JsMap.set (basename_no_ext (f_filename f))
                                              (stored_metadata f st) (fileMetadata s);
                    disk := disk s |}).
      + intros p [e [He Hp]]. apply In_set in He. destruct He as [->|He].
        * right. cbn in Hp. cbn. now subst p.
        * left. exists e. auto.
    - exists (fileMetadata s). split; [|auto].
      unfold handle, api_upload, bind, ret. cbn. apply blobs_kept_refl.
    - exists (fileMetadata s). split; [now apply reads_disk|auto].
    - exists (fileMetadata s). split; [now apply reads_disk|auto].
    - exists (fileMetadata s). split; [now apply reads_disk|auto].
    - exists (fileMetadata s). split; [now apply reads_disk|auto].
    - exists (fileMetadata s). split; [|auto].
      unfold handle. rewrite bind_ret_store, cleanExpiredFiles_store.
      apply for_each_clean_disk.
    - exists (fileMetadata s). split; [|auto].
      unfold handle. rewrite bind_ret_store. apply capacity_pass_disk. }
  destruct H as [m [[R K] Hm]]. split; [exact R|].
  intros p. destruct (K p) as [A B]. split; [exact A|].
  intros Hp Hup. apply B. intros Ht. destruct (Hm p Ht); contradiction.
Qed.

Lemma untracked_blobs_are_never_touched_witness :
  let s := {| fileMetadata := six_archives;
              disk := {| blobs := "uploads/.keep" :: all_blobs; refused := [] |} |} in
  mem "uploads/.keep" (blobs (disk (store_of (handle SweepCapacity s)))) =
  mem "uploads/.keep" (blobs (disk s)).
Proof.
  intros s.
  refine (proj2 (proj2 (untracked_blobs_are_never_touched SweepCapacity s)
                       "uploads/.keep") _ _).
  - intros [e [He Hp]]. simpl in He.
    destruct He as [<-|[<-|[<-|[<-|[<-|[<-|[]]]]]]]; discriminate Hp.
  - discriminate.
Defined.

(** ** Reads *)

Section Reads.
Import JsMap JsMapFacts.

Lemma handle_quiet r s : quiet_read s r -> store_of (handle r s) = s.
Proof.
  destruct r as [f st rs|id now|id now|id now|id|now|]; cbn [quiet_read];
    intros H; try contradiction; unfold handle; rewrite bind_ret_store.
  - destruct (get id (fileMetadata s)) as [md|] eqn:G.
    + apply is_expired_le in H. now rewrite (api_file_fresh id now s md G H).
    + now rewrite (api_file_absent id now s G).
  - destruct (get id (fileMetadata s)) as [md|] eqn:G.
    + destruct H as [H A]. apply is_expired_le in H.
      now rewrite (api_download_sent id now s md G H A).
    + now rewrite (api_download_absent id now s G).
  - destruct (get id (fileMetadata s)) as [md|] eqn:G.
    + apply is_expired_le in H. now rewrite (api_preview_fresh id now s md G H).
    + now rewrite (api_preview_absent id now s G).
  - apply file_page_unchanged.
Qed.

Lemma read_other_entry r s id id' :
  read_target r = Some id -> id' <> id ->
  get id' (fileMetadata (store_of (handle r s))) = get id' (fileMetadata s).
Proof.
  intros Ht Hne.
  assert (Hcases : store_of (handle r s) = s \/
                   fileMetadata (store_of (handle r s)) =
                   delete id (fileMetadata s)).
  { destruct r as [f st rs|i now|i now|i now|i|now|]; try discriminate Ht;
      injection Ht as ->; unfold handle; rewrite bind_ret_store.
    - destruct (get id (fileMetadata s)) as [md|] eqn:G.
      + destruct (is_expired now md) eqn:E.
        * rewrite (api_file_expired id now s md G E). now right.
        * rewrite (api_file_fresh id now s md G E). now left.
      + rewrite (api_file_absent id now s G). now left.
    - destruct (get id (fileMetadata s)) as [md|] eqn:G.
      + destruct (is_expired now md) eqn:E.
        * rewrite (api_download_expired id now s md G E). now right.
        * destruct (access_ok (filePath md) (disk s)) eqn:A.
          -- rewrite (api_download_sent id now s md G E A). now left.
          -- rewrite (api_download_purged id now s md G E A). now right.
      + rewrite (api_download_absent id now s G). now left.
    - destruct (get id (fileMetadata s)) as [md|] eqn:G.
      + destruct (is_expired now md) eqn:E.
        * rewrite (api_preview_expired id now s md G E). now right.
        * rewrite (api_preview_fresh id now s md G E). now left.
      + rewrite (api_preview_absent id now s G). now left.
    - left. apply file_page_unchanged. }
  destruct Hcases as [->| ->]; [reflexivity|].
  apply get_delete_other. congruence.
Qed.

End Reads.

(** X8.  Reading one file never alters the record of another: after a
    metadata, download, preview or share-page request on one identifier,
    every other identifier maps to what it mapped to before. *)
Theorem reads_leave_other_records
        (r : Request) (s : Store) (fileId other : string) :
  read_target r = Some fileId ->
  other <> fileId ->
  JsMap.get other (fileMetadata (store_of (handle r s))) =
  JsMap.get other (fileMetadata s).
Proof. apply read_other_entry. Qed.

Lemma reads_leave_other_records_witness :
  JsMap.get "b2" (fileMetadata
                    (store_of (handle (Download "a1" (1000 + TTL_MS + 1))
                                      six_blobs_gone))) =
  JsMap.get "b2" (fileMetadata six_blobs_gone).
Proof.
  apply (reads_leave_other_records (Download "a1" (1000 + TTL_MS + 1))
                                   six_blobs_gone "a1" "b2").
  - reflexivity.
  - discriminate.
Defined.

(** X9.  Reads of live files have no side effect.  A sequence of metadata,
    download, preview and share-page requests, each on an absent identifier
    or on a record within its time to live (with its blob on disk, for a
    download), leaves the index and the disk exactly as they were. *)
Theorem quiet_reads_change_nothing (rs : list Request) (s : Store) :
  (forall r, In r rs -> quiet_read s r) ->
  serve rs s = s.
Proof.
  induction rs as [|r rs IH]; intros H; cbn [serve]; [reflexivity|].
  rewrite (handle_quiet r s) by (apply H; now left).
  apply IH. intros q Hq. apply H. now right.
Qed.

Lemma quiet_reads_change_nothing_witness :
  serve [GetFile "a1" 2000; Download "b2" 3000; Preview "c3" 4000;
         FilePage "d4"; GetFile "zz" 5000] six_on_disk = six_on_disk.
Proof.
  apply quiet_reads_change_nothing.
  intros r Hr. simpl in Hr.
  destruct Hr as [<-|[<-|[<-|[<-|[<-|[]]]]]]; vm_compute;
    try (split; [discriminate | reflexivity]); try discriminate; exact I.
Defined.

(** ** The two revisions of the backend *)

Section BackendRevisions.
Import JsMap JsMapFacts.

(** On an entry that is still in the map, the one-loop sweep does to the
    store what [clean_one] does when the entry is expired, and nothing
    otherwise. *)
Lemma backend_clean_entry_store now e s :
  get (fst e) (fileMetadata s) = Some (snd e) ->
  store_of (backend_clean_entry now e s) =
  if is_expired now (snd e) then store_of (clean_one (fst e) s) else s.
Proof.
  intros G. unfold backend_clean_entry, clean_one, bind, map_get, fs_unlink,
                  map_delete, console_log, console_error, ret.
  rewrite G.
  destruct (is_expired now (snd e)); [|reflexivity].
  destruct (unlink_ok (filePath (snd e)) (disk s)); reflexivity.
Qed.

Lemma backend_sweep_steps now es :
  forall s,
    NoDup (map fst es) ->
    (forall e, In e es -> get (fst e) (fileMetadata s) = Some (snd e)) ->
    store_of (for_each (backend_clean_entry now) es s) =
    store_of (for_each clean_one (expiredFiles now es) s).
Proof.
  induction es as [|e es IH]; intros s Hnd Hget; [reflexivity|].
  inversion Hnd as [|? ? Hni Hnd']; subst.
  cbn [for_each]. rewrite bind_store.
  rewrite backend_clean_entry_store by (apply Hget; now left).
  unfold expiredFiles. cbn [filter map].
  destruct (is_expired now (snd e)) eqn:E.
  - cbn [map for_each]. rewrite bind_store. apply IH; [exact Hnd'|].
    intros e' He'. rewrite clean_one_get_other.
    + apply Hget. now right.
    + intros Eq. apply Hni. rewrite Eq. now apply in_map.
  - apply IH; [exact Hnd'|]. intros e' He'. apply Hget. now right.
Qed.

End BackendRevisions.

(** X10.  The one-loop expiry sweep of [src/backend/server.js], which
    unlinks and deletes while it iterates over the map, leaves the same index
    and the same disk as the two-loop sweep of [src/server.js], which first
    collects the expired identifiers. *)
Theorem backend_sweep_agrees (s : Store) (now : Z) :
  JsMap.wf (fileMetadata s) ->
  store_of (backend_cleanExpiredFiles now s) = store_of (cleanExpiredFiles now s).
Proof.
  intros Hwf. rewrite cleanExpiredFiles_store.
  unfold backend_cleanExpiredFiles. rewrite bind_store.
  cbn [map_entries result_of store_of fst snd].
  apply backend_sweep_steps; [exact Hwf|].
  intros [k v] He. now apply JsMapFacts.In_get.
Qed.

Lemma backend_sweep_agrees_witness :
  JsMap.wf (fileMetadata oldest_blob_gone) /\
  store_of (backend_cleanExpiredFiles (3000 + TTL_MS + 1) oldest_blob_gone) =
  store_of (cleanExpiredFiles (3000 + TTL_MS + 1) oldest_blob_gone).
Proof.
  assert (W : JsMap.wf (fileMetadata oldest_blob_gone)) by distinct_keys.
  split; [exact W|].
  exact (backend_sweep_agrees oldest_blob_gone (3000 + TTL_MS + 1) W).
Defined.



(** ** Preview: what is sent, and what the page asks for *)

Section PreviewChoices.


End PreviewChoices.



(** X13.  The file page asks for previews the server always refuses.  For a
    lower-case mime type that starts with [video/] or [audio/],
    [loadPreview] builds a player whose source is [/api/preview/:fileId],
    and the preview handler answers that request, for a present and
    unexpired record, with 400 "File type not previewable". *)
Theorem video_and_audio_previews_are_refused
        (toLowerCase : string -> string)
        (s : Store) (fileId : string) (metadata : Metadata) (now : Z) :
  JsMap.get fileId (fileMetadata s) = Some metadata ->
  now - uploadTime metadata <= TTL_MS ->
  toLowerCase (mimetype metadata) = mimetype metadata ->
  starts_with "video/" (mimetype metadata) \/
  starts_with "audio/" (mimetype metadata) ->
  fetched_preview (loadPreview toLowerCase fileId (mimetype metadata)) = Some fileId /\
  api_preview fileId now s = (not_previewable, s, []).
Proof.
  intros G E Hlow Hkind. apply is_expired_le in E.
  rewrite (api_preview_fresh fileId now s metadata G E).
  unfold loadPreview, isPreviewable. rewrite Hlow.
  destruct Hkind as [[rest ->]|[rest ->]]; split; destruct rest; reflexivity.
Qed.

Lemma video_and_audio_previews_are_refused_witness :
  let clip := {| originalName := "clip.mp4"; size := 4096; mimetype := "video/mp4";
                 uploadTime := 1000; filePath := "uploads/9c1d.mp4";
                 filename := "9c1d.mp4" |} in
  let s := {| fileMetadata := [("9c1d", clip)];
              disk := {| blobs := ["uploads/9c1d.mp4"]; refused := [] |} |} in
  fetched_preview (loadPreview ascii_toLowerCase "9c1d" "video/mp4") = Some "9c1d" /\
  api_preview "9c1d" 2000 s = (not_previewable, s, []).
Proof.
  intros clip s.
  apply (video_and_audio_previews_are_refused ascii_toLowerCase s "9c1d" clip 2000).
  - reflexivity.
  - vm_compute. discriminate.
  - reflexivity.
  - left. exists "mp4". reflexivity.
Defined.

(** ** The identifier behind a stored file name *)

Section StoredNames.

Lemma append_empty s : (s ++ "")%string = s.
Proof. induction s as [|c s IH]; simpl; congruence. Qed.


Lemma substring_app_front s1 s2 :
  substring 0 (String.length s1) (s1 ++ s2) = s1.
Proof.
  induction s1 as [|c s1 IH]; simpl.
  - now destruct s2.
  - now rewrite IH.
Qed.

Lemma last_index_none c s :
  all_chars (fun a => negb (Ascii.eqb a c)) s = true -> last_index c s = None.
Proof.
  induction s as [|a s IH]; simpl; [reflexivity|].
  intros H. apply andb_true_iff in H. destruct H as [Ha Hs].
  rewrite (IH Hs). now destruct (Ascii.eqb a c).
Qed.

Lemma last_index_app c s1 s2 i :
  last_index c s2 = Some i ->
  last_index c (s1 ++ s2) = Some (String.length s1 + i)%nat.
Proof.
  intros H. induction s1 as [|a s1 IH]; simpl; [exact H|].
  now rewrite IH.
Qed.

Lemma hex_is_not_dot token :
  all_chars is_hex_digit token = true ->
  all_chars (fun a => negb (Ascii.eqb a "."%char)) token = true.
Proof.
  induction token as [|a token IH]; simpl; [reflexivity|].
  intros H. apply andb_true_iff in H. destruct H as [Ha Hs].
  rewrite (IH Hs), andb_true_r.
  destruct (Ascii.eqb_spec a "."%char) as [->|_]; [discriminate Ha | reflexivity].
Qed.

Lemma last_index_none_app c s1 s2 :
  last_index c s2 = None -> last_index c (s1 ++ s2) = last_index c s1.
Proof.
  intros H. induction s1 as [|a s1 IH]; simpl; [exact H|].
  now rewrite IH.
Qed.

End StoredNames.

(** X14.  The upload handler recovers the token multer generated.  The disk
    storage names the blob with a non-empty hexadecimal token followed by the
    extension of the original name (nothing, or a dot and characters without
    a dot); stripping the extension from that file name, as the upload
    handler does to obtain [fileId], gives back the token, whatever the
    original name. *)
Theorem upload_recovers_token (token ext : string) :
  token <> "" ->
  all_chars is_hex_digit token = true ->
  is_extension ext ->
  basename_no_ext (storage_filename token ext) = token.
Proof.
  intros Hne Hhex Hext. unfold basename_no_ext, storage_filename.
  pose proof (last_index_none "."%char token (hex_is_not_dot token Hhex)) as Hnone.
  destruct Hext as [->|[rest [-> Hrest]]].
  - rewrite append_empty, Hnone. reflexivity.
  - assert (Hdot : last_index "."%char (String "."%char rest) = Some 0%nat).
    { simpl. now rewrite (last_index_none "."%char rest Hrest). }
    rewrite (last_index_app "."%char token _ 0 Hdot). rewrite Nat.add_0_r.
    destruct token as [|a token]; [contradiction|].
    cbn [String.length].
    change (S (String.length token)) with (String.length (String a token)).
    apply substring_app_front.
Qed.

Lemma upload_recovers_token_witness :
  basename_no_ext (storage_filename "0f3a9c" ".txt") = "0f3a9c".
Proof.
  apply upload_recovers_token.
  - discriminate.
  - reflexivity.
  - right. exists "txt". split; reflexivity.
Defined.

(** ** The file page *)

(** X15.  The countdown of the file page.  It prints "Expired" exactly when
    the expiry is not in the future.  Otherwise the numbers it prints are the
    time left, rounded down: hours and minutes (minutes below 60) from one
    hour on, minutes and seconds (both below 60) below one hour, seconds
    alone below one minute; and the colour follows the time left: orange
    exactly when no hour is printed, yellow exactly when the hours printed
    are 1, green exactly from two hours on. *)
Theorem countdown_shows_time_left (expiryDate now : Z) :
  let shown := updateExpiryTime expiryDate now in
  let diff := expiryDate - now in
  (textContent shown = TextExpired <-> diff <= 0) /\
  (0 < diff ->
   match textContent shown with
   | TextExpired => False
   | TextHoursMinutes hours minutes =>
       1 <= hours /\ 0 <= minutes < 60 /\
       hours * 3600000 + minutes * 60000 <= diff
         < hours * 3600000 + (minutes + 1) * 60000 /\
       (color shown = "#ffeb3b" <-> hours = 1) /\
       (color shown = "#4caf50" <-> 2 <= hours) /\
       color shown <> "#ff9800"
   | TextMinutesSeconds minutes seconds =>
       1 <= minutes < 60 /\ 0 <= seconds < 60 /\
       minutes * 60000 + seconds * 1000 <= diff
         < minutes * 60000 + (seconds + 1) * 1000 /\
       color shown = "#ff9800"
   | TextSeconds seconds =>
       0 <= seconds < 60 /\
       seconds * 1000 <= diff < (seconds + 1) * 1000 /\
       color shown = "#ff9800"
   end).
Proof.
  cbv zeta. unfold updateExpiryTime.
  destruct (Z.leb_spec (expiryDate - now) 0) as [Hle|Hgt].
  - cbn [textContent]. split; [tauto | lia].
  - cbn [textContent color]. split; [split; [|lia]|].
    + destruct (0 <? _); [discriminate|]. destruct (0 <? _); discriminate.
    + intros _.
      set (diff := expiryDate - now) in *.
      change (1000 * 60 * 60) with 3600000. change (1000 * 60) with 60000.
      destruct (Z.ltb_spec 0 (diff / 3600000)) as [Hh|Hh].
      * destruct (Z.ltb_spec diff 3600000) as [H1|H1];
          [exfalso; Z.div_mod_to_equations; lia|].
        destruct (Z.ltb_spec diff 7200000) as [H2|H2].
        -- repeat split; try discriminate; try (Z.div_mod_to_equations; lia).
        -- repeat split; try discriminate; try (Z.div_mod_to_equations; lia).
      * assert (H1 : diff < 3600000) by (Z.div_mod_to_equations; lia).
        destruct (Z.ltb_spec diff 3600000) as [_|?]; [|lia].
        destruct (Z.ltb_spec 0 (diff mod 3600000 / 60000)) as [Hm|Hm].
        -- repeat split; try (Z.div_mod_to_equations; lia).
        -- repeat split; try (Z.div_mod_to_equations; lia).
Qed.

Lemma countdown_shows_time_left_witness :
  textContent (updateExpiryTime (1000 + TTL_MS) (1000 + 3 * 60000 + 7500)) =
    TextHoursMinutes 23 56 /\
  color (updateExpiryTime (1000 + TTL_MS) (1000 + 3 * 60000 + 7500)) = "#4caf50".
Proof.
  pose proof (countdown_shows_time_left (1000 + TTL_MS) (1000 + 3 * 60000 + 7500))
    as [_ H].
  cbv zeta in H.
  assert (P : 0 < 1000 + TTL_MS - (1000 + 3 * 60000 + 7500))
    by (vm_compute; reflexivity).
  specialize (H P).
  split; [reflexivity|].
  change (textContent (updateExpiryTime (1000 + TTL_MS) (1000 + 3 * 60000 + 7500)))
    with (TextHoursMinutes 23 56) in H.
  destruct H as [_ [_ [_ [_ [Hgreen _]]]]]. apply Hgreen. lia.
Defined.



(** ** Uploads and the records of the index *)

Section UploadFrame.
Import JsMap JsMapFacts.

Lemma set_fresh k v (m : JsMap.t) : ~ In k (keys m) -> set k v m = m ++ [(k, v)].
Proof.
  induction m as [|[k0 v0] m IH]; simpl; [reflexivity|].
  intros H. destruct (String.eqb_spec k k0) as [->|Hne].
  - exfalso. apply H. now left.
  - f_equal. apply IH. tauto.
Qed.

Lemma total_app (m1 m2 : JsMap.t) : total (m1 ++ m2) = total m1 + total m2.
Proof.
  unfold total. induction m1 as [|e m1 IH]; simpl; [reflexivity|].
  rewrite IH. lia.
Qed.

End UploadFrame.

(** X17.  An upload under a new identifier that keeps the index within the
    cap adds exactly its record: the record goes to the end of the index,
    every other entry and the disk stay as they were, the only effect is the
    [set], and the answer is 200 with the identifier. *)
Theorem upload_within_cap_adds_one_record
        (s : Store) (f : UploadedFile) (stored responded : Z) :
  let fileId := basename_no_ext (f_filename f) in
  ~ In fileId (JsMap.keys (fileMetadata s)) ->
  JsMap.total (fileMetadata s) + f_size f <= MAX_STORAGE ->
  api_upload (Some f) stored responded s =
  (mkResponse 200 (UploadJson fileId "File uploaded successfully"
                              (responded + TTL_MS)),
   {| fileMetadata := fileMetadata s ++ [(fileId, stored_metadata f stored)];
      disk := disk s |},
   [EvSet fileId]).
Proof.
  intros fileId Hfresh Hcap.
  assert (Hset : JsMap.set fileId (stored_metadata f stored) (fileMetadata s) =
                 fileMetadata s ++ [(fileId, stored_metadata f stored)])
    by now apply set_fresh.
  assert (Hidle : manageStorageCapacity
                    {| fileMetadata := JsMap.set fileId (stored_metadata f stored)
                                                 (fileMetadata s);
                       disk := disk s |} =
                  (tt, {| fileMetadata := JsMap.set fileId (stored_metadata f stored)
                                                    (fileMetadata s);
                          disk := disk s |}, [])).
  { apply capacity_pass_idle. cbn [fileMetadata]. rewrite Hset, total_app.
    unfold JsMap.total at 2. cbn. unfold MAX_STORAGE in Hcap. lia. }
  unfold api_upload, bind, map_set, ret. fold fileId.
  rewrite Hidle. now rewrite Hset.
Qed.

Lemma upload_within_cap_adds_one_record_witness :
  api_upload (Some notes) 1000 1005 picture_on_disk =
  (mkResponse 200 (UploadJson "0f3a" "File uploaded successfully" (1005 + TTL_MS)),
   {| fileMetadata := [("77aa", picture); ("0f3a", stored_metadata notes 1000)];
      disk := disk picture_on_disk |},
   [EvSet "0f3a"]).
Proof.
  apply (upload_within_cap_adds_one_record picture_on_disk notes 1000 1005).
  - simpl. intros [H|[]]. discriminate H.
  - vm_compute. discriminate.
Defined.

(** X18.  Records are never modified, only dropped, and never come back.
    Through any sequence of requests that does not upload under an
    identifier, that identifier maps to the record it mapped to at the start
    or to nothing; an identifier absent at the start stays absent. *)
Theorem records_are_only_dropped (rs : list Request) (s : Store) (fileId : string) :
  JsMap.wf (fileMetadata s) ->
  (forall q, In q rs -> uploads q <> Some fileId) ->
  (JsMap.get fileId (fileMetadata (serve rs s)) = None \/
   JsMap.get fileId (fileMetadata (serve rs s)) = JsMap.get fileId (fileMetadata s)) /\
  (JsMap.get fileId (fileMetadata s) = None ->
   JsMap.get fileId (fileMetadata (serve rs s)) = None).
Proof.
  intros Hwf Hrs. split.
  - now apply serve_keeps.
  - now apply serve_absent.
Qed.

Lemma records_are_only_dropped_witness :
  let rs := [SweepExpired (2000 + TTL_MS + 1); Upload (Some notes) 9000 9001;
             Download "c3" 9500; SweepCapacity] in
  JsMap.get "c3" (fileMetadata (serve rs six_and_notes_blob)) = None \/
  JsMap.get "c3" (fileMetadata (serve rs six_and_notes_blob)) =
  JsMap.get "c3" (fileMetadata six_and_notes_blob).
Proof.
  intros rs.
  refine (proj1 (records_are_only_dropped rs six_and_notes_blob "c3" _ _)).
  - distinct_keys.
  - intros q Hq. simpl in Hq.
    destruct Hq as [<-|[<-|[<-|[<-|[]]]]]; simpl; discriminate.
Defined.
